(** * aws-ssm-run-command: the [run] procedure of src/main.js

    A shallow embedding of the action's single procedure, [run], and the
    properties of its dispatch / poll / report flow.

    [run] is effectful JavaScript: it reads the action inputs, talks to the
    remote command service through [ssmClient.send], sleeps between polls,
    writes log lines and outputs through [@actions/core], and may throw.
    It is modelled in a small monad [M] that threads the process state
    (the chronological list of observable events and the number of requests
    the client has sent so far) and propagates exceptions.  The remote
    service and the supplied inputs form the [World] a run executes in. *)

From Stdlib Require Import ZArith Ascii String List Lia.
From stdpp Require Import base decidable option list gmap strings pretty.

Local Open Scope Z_scope.

(** ** JavaScript values *)

(** The values handed to [core.setOutput] and interpolated in template
    literals: a string, a number (the exit code) or [undefined] (a property
    the response does not carry). *)
Inductive JsValue : Type :=
  | JsUndefined
  | JsString (s : string)
  | JsNumber (n : Z).

Definition of_string (o : option string) : JsValue :=
  match o with Some s => JsString s | None => JsUndefined end.

Definition of_number (o : option Z) : JsValue :=
  match o with Some n => JsNumber n | None => JsUndefined end.

(** [`${v}`]: the string a template literal interpolates for [v]. Exit codes
    are integers, whose JavaScript rendering is the decimal numeral. *)
Definition template (v : JsValue) : string :=
  match v with
  | JsUndefined => "undefined"
  | JsString s => s
  | JsNumber n => pretty n
  end.

(** Truthiness of a string-or-undefined value: [if (s)], [s || d]. *)
Definition truthy (s : string) : bool :=
  match s with EmptyString => false | String _ _ => true end.

(** [o || d] for a property [o] that is a string or absent. *)
Definition or_default (o : option string) (d : string) : string :=
  match o with
  | Some s => if truthy s then s else d
  | None => d
  end.

(** [a === 'lit'] for a value that is a string or [undefined]. *)
Definition strict_eq (a : option string) (lit : string) : bool :=
  match a with
  | Some s => bool_decide (s = lit)
  | None => false
  end.

(** ** String built-ins: [String.prototype.trim] and [parseInt] *)

(** A [string] holds the UTF-8 encoding of the JavaScript string, which is
    how the runner hands the inputs over. JavaScript's white space and line
    terminators are then byte sequences of length one, two or three. *)

Definition code (c : ascii) : N := N_of_ascii c.

(** TAB, LF, VT, FF, CR and SPACE. *)
Definition is_white_space1 (a : ascii) : bool :=
  ((9 <=? code a) && (code a <=? 13) || (code a =? 32))%N.

(** U+00A0, the no-break space. *)
Definition is_white_space2 (a b : ascii) : bool :=
  ((code a =? 194) && (code b =? 160))%N.

(** U+1680; U+2000 to U+200A, U+2028, U+2029 and U+202F; U+205F; U+3000;
    U+FEFF. *)
Definition is_white_space3 (a b c : ascii) : bool :=
  ((code a =? 225) && (code b =? 154) && (code c =? 128)
   || (code a =? 226) && (code b =? 128) &&
      ((128 <=? code c) && (code c <=? 138) || (code c =? 168) ||
       (code c =? 169) || (code c =? 175))
   || (code a =? 226) && (code b =? 129) && (code c =? 159)
   || (code a =? 227) && (code b =? 128) && (code c =? 128)
   || (code a =? 239) && (code b =? 187) && (code c =? 191))%N.

(** Remove the white space at the head of [s]. With [backwards], [s] is a
    reversed string, whose characters have their bytes in reverse. *)
Fixpoint strip (backwards : bool) (s : list ascii) : list ascii :=
  match s with
  | a :: s1 =>
      if is_white_space1 a then strip backwards s1
      else
        match s1 with
        | b :: s2 =>
            if (if backwards then is_white_space2 b a else is_white_space2 a b)
            then strip backwards s2
            else
              match s2 with
              | c :: s3 =>
                  if (if backwards then is_white_space3 c b a
                      else is_white_space3 a b c)
                  then strip backwards s3
                  else s
              | [] => s
              end
        | [] => s
        end
  | [] => []
  end.

Definition trim_start (s : list ascii) : list ascii := strip false s.

(** [s.trim()]: white space is removed at both ends. *)
Definition trim (s : string) : string :=
  string_of_list_ascii
    (rev (strip true (rev (trim_start (list_ascii_of_string s))))).

(** A JavaScript number, as [parseInt] can return it: a double that is
    [NaN], an infinity, minus zero, or an integer. *)
Inductive JsDouble : Type :=
  | NaN
  | NegativeZero
  | Finite (z : Z)
  | Infinity (negative : bool).

(** The double nearest to the natural number [m], ties going to the even
    significand; [None] when it is beyond the largest double. *)
Definition round_to_double (m : Z) : option Z :=
  if m <? 2 ^ 53 then Some m
  else
    let e := Z.log2 m - 52 in
    let q := m / 2 ^ e in
    let r := m mod 2 ^ e in
    let half := 2 ^ (e - 1) in
    let q' := if (half <? r) || ((r =? half) && Z.odd q) then q + 1 else q in
    let v := q' * 2 ^ e in
    if v <? 2 ^ 1024 then Some v else None.

(** The value of [c] as a digit of the given radix (10 or 16). *)
Definition digit_value (radix : Z) (c : ascii) : option Z :=
  let n := Z.of_N (code c) in
  if (48 <=? n) && (n <=? 57) then Some (n - 48)
  else if (radix =? 16) && (97 <=? n) && (n <=? 102) then Some (n - 87)
  else if (radix =? 16) && (65 <=? n) && (n <=? 70) then Some (n - 55)
  else None.

(** The longest prefix of radix digits, accumulated most significant first;
    [None] while no digit has been read. *)
Fixpoint parse_digits (radix : Z) (acc : option Z) (s : list ascii) : option Z :=
  match s with
  | c :: s' =>
      match digit_value radix c with
      | Some d => parse_digits radix (Some (default 0 acc * radix + d)) s'
      | None => acc
      end
  | [] => acc
  end.

(** The number for a sign and the digits read: no digit gives [NaN], a
    negative sign before zero gives minus zero, and the integer is rounded to
    a double (the engine's rounding of long numerals is the correct one). *)
Definition number_of (negative : bool) (digits : option Z) : JsDouble :=
  match digits with
  | None => NaN
  | Some m =>
      if (m =? 0) && negative then NegativeZero
      else
        match round_to_double m with
        | Some v => Finite (if negative then - v else v)
        | None => Infinity negative
        end
  end.

(** [parseInt(s)] with no radix argument: leading white space is skipped, a
    sign is read, a [0x]/[0X] prefix selects radix 16, and the longest prefix
    of digits is read as an integer. *)
Definition parseInt (s : string) : JsDouble :=
  let s0 := trim_start (list_ascii_of_string s) in
  let '(negative, s1) :=
    match s0 with
    | "-"%char :: r => (true, r)
    | "+"%char :: r => (false, r)
    | _ => (false, s0)
    end in
  let '(radix, s2) :=
    match s1 with
    | "0"%char :: "x"%char :: r => (16, r)
    | "0"%char :: "X"%char :: r => (16, r)
    | _ => (10, s1)
    end in
  number_of negative (parse_digits radix None s2).

(** ** Requests and responses of the remote command service *)

Record SendCommandInput : Type := {
  InstanceIds : list string;
  DocumentName : string;
  Parameters : gmap string (list string);
  TimeoutSeconds : JsDouble
}.

Record GetCommandInvocationInput : Type := {
  CommandId : option string;
  InstanceId : string
}.

Inductive Command : Type :=
  | SendCommandCommand (input : SendCommandInput)
  | GetCommandInvocationCommand (input : GetCommandInvocationInput).

Record CommandInfo : Type := {
  Command_CommandId : option string
}.

(** A response object; [None] is a property the object does not have. *)
Record Response : Type := {
  Command_ : option CommandInfo;
  Status : option string;
  StandardOutputContent : option string;
  StandardErrorContent : option string;
  ResponseCode : option Z
}.

(** A thrown [Error], observed only through its [message]. *)
Record Error : Type := { message : string }.

(** ** The world a run executes in *)

(** [inputs] are the values the workflow supplies, by input name. [service n c]
    is what the remote service answers to the request [c] when [n] requests
    were sent before it: a response, or a rejection. *)
Record World : Type := {
  inputs : gmap string string;
  service : nat -> Command -> Error + Response
}.

(** ** Observable events and the process state *)

Inductive Event : Type :=
  | Info (msg : string)
  | Warning (msg : string)
  | SetFailed (msg : string)
  | SetOutput (name : string) (value : JsValue)
  | NewSSMClient (region : string)
  | Wait (ms : Z)
  | Send (c : Command).

Record Process : Type := {
  events : list Event;   (* chronological, oldest first *)
  sent : nat             (* requests sent through the client so far *)
}.

Definition start : Process := {| events := []; sent := 0 |}.

Definition emit (e : Event) (p : Process) : Process :=
  {| events := events p ++ [e]; sent := sent p |}.

(** ** The monad of [run] *)

Inductive Completion (A : Type) : Type :=
  | Normal (a : A)
  | Throw (e : Error)
  | Unfinished.  (* the model's loop budget ran out; never the program's *)
Arguments Normal {A} a.
Arguments Throw {A} e.
Arguments Unfinished {A}.

Definition M (A : Type) : Type := World -> Process -> Completion A * Process.

Definition ret {A} (a : A) : M A := fun _ p => (Normal a, p).

Definition bind {A B} (m : M A) (f : A -> M B) : M B :=
  fun w p =>
    match m w p with
    | (Normal a, p') => f a w p'
    | (Throw e, p') => (Throw e, p')
    | (Unfinished, p') => (Unfinished, p')
    end.

Definition throw {A} (msg : string) : M A :=
  fun _ p => (Throw {| message := msg |}, p).

Definition log (e : Event) : M unit := fun _ p => (Normal tt, emit e p).

(** [try { body } catch (error) { handler(error) }] *)
Definition try_catch (body : M unit) (handler : Error -> M unit) : M unit :=
  fun w p =>
    match body w p with
    | (Throw e, p') => handler e w p'
    | r => r
    end.

Notation "x <- m ;; k" := (bind m (fun x => k))
  (at level 100, m at next level, right associativity).
Notation "m ;;; k" := (bind m (fun _ => k))
  (at level 100, right associativity).

(** ** [@actions/core] *)

Module core.

(** [core.getInput(name, { required })]: the supplied value, [''] when none
    is; a required input that is empty throws; the value is trimmed. *)
Definition getInput (name : string) (required : bool) : M string :=
  fun w p =>
    let val := default "" (inputs w !! name) in
    if required && negb (truthy val)
    then (Throw {| message := "Input required and not supplied: " +:+ name |}, p)
    else (Normal (trim val), p).

Definition info (msg : string) : M unit := log (Info msg).
Definition warning (msg : string) : M unit := log (Warning msg).
Definition setFailed (msg : string) : M unit := log (SetFailed msg).
Definition setOutput (name : string) (value : JsValue) : M unit :=
  log (SetOutput name value).

End core.

(** ** The SSM client *)

(** [await ssmClient.send(c)]: the request is recorded, and the service's
    answer is the result; a rejection is thrown. Whatever the SDK and the
    remote service do with a request (validation, signing, transport) is the
    world's [service]. *)
Definition send (c : Command) : M Response :=
  fun w p =>
    let p' := {| events := events p ++ [Send c]; sent := S (sent p) |} in
    match service w (sent p) c with
    | inr r => (Normal r, p')
    | inl e => (Throw e, p')
    end.

(** [new SSMClient({ region })]: the SDK resolves the region in the
    constructor, and throws when it is the empty string. Credentials and
    endpoints are resolved by [send]. *)
Definition new_SSMClient (region : string) : M unit :=
  if truthy region then log (NewSSMClient region)
  else throw "Region is missing".

(** Modelled from the spec: wait.js is not among the sources. The spec has the
    poll loop wait a fixed five seconds between checks, during which the
    process only blocks; [wait ms] records the pause. *)
Definition wait (ms : Z) : M unit := log (Wait ms).

(** Reading property [prop] of a value that may be [undefined]. *)
Definition property {A B} (o : option A) (prop : string) (get : A -> B) : M B :=
  match o with
  | Some a => ret (get a)
  | None => throw ("Cannot read properties of undefined (reading '" +:+ prop +:+ "')")
  end.

(** ** [run] (src/main.js) *)

(** [const maxAttempts = 120] *)
Definition maxAttempts : nat := 120.

(** The request object built at lines 33-45: the [commands] parameter always,
    [workingDirectory] only when that input is truthy. *)
Definition commandParams (instanceId command workingDirectory timeout : string)
  : SendCommandInput :=
  let Parameters0 : gmap string (list string) := {[ "commands" := [command] ]} in
  {| InstanceIds := [instanceId];
     DocumentName := "AWS-RunShellScript";
     Parameters :=
       if truthy workingDirectory
       then <[ "workingDirectory" := [workingDirectory] ]> Parameters0
       else Parameters0;
     TimeoutSeconds := parseInt timeout |}.

(** Lines 17-54: read the inputs, create the client, submit the command.
    Yields [instanceId] and [commandId]. *)
Definition dispatch : M (string * option string) :=
  instanceId <- core.getInput "instance-id" true ;;
  region <- core.getInput "region" true ;;
  command <- core.getInput "command" true ;;
  workingDirectory <- core.getInput "working-directory" false ;;
  timeout_seconds <- core.getInput "timeout-seconds" false ;;
  let timeout := if truthy timeout_seconds then timeout_seconds else "3600" in
  core.info ("Running command on instance " +:+ instanceId +:+
             " in region " +:+ region) ;;;
  core.info ("Command: " +:+ command) ;;;
  new_SSMClient region ;;;
  core.info "Sending command to SSM..." ;;;
  sendCommandResponse <-
    send (SendCommandCommand
            (commandParams instanceId command workingDirectory timeout)) ;;
  commandId <- property (Command_ sendCommandResponse) "CommandId"
                 Command_CommandId ;;
  core.info ("Command sent with ID: " +:+ template (of_string commandId)) ;;;
  ret (instanceId, commandId).

(** The variables of the poll loop. *)
Record Poll : Type := {
  status : option string;
  attempts : nat;
  lastInvocationResponse : option Response
}.

(** The guard of the [while] at line 63. *)
Definition loop_condition (status : option string) : bool :=
  strict_eq status "InProgress" || strict_eq status "Pending".

(** Lines 63-83. [fuel] bounds the iterations of the model; the loop itself
    is bounded by [maxAttempts] (see [poll_loop_fuel]). *)
Fixpoint poll_loop (fuel : nat) (instanceId : string) (commandId : option string)
    (v : Poll) : M Poll :=
  if loop_condition (status v) then
    match fuel with
    | O => fun _ p => (Unfinished, p)
    | S fuel' =>
        if (maxAttempts <=? attempts v)%nat
        then throw "Command execution timeout - exceeded maximum wait time"
        else
          wait 5000 ;;;
          response <-
            send (GetCommandInvocationCommand
                    {| CommandId := commandId; InstanceId := instanceId |}) ;;
          let status := Status response in
          core.info ("Command status: " +:+ template (of_string status)) ;;;
          poll_loop fuel' instanceId commandId
            {| status := status;
               attempts := S (attempts v);
               lastInvocationResponse := Some response |}
    end
  else ret v.

(** Lines 57-83. *)
Definition poll (fuel : nat) (instanceId : string) (commandId : option string)
  : M Poll :=
  core.info "Waiting for command to complete..." ;;;
  poll_loop fuel instanceId commandId
    {| status := Some "InProgress";
       attempts := 0;
       lastInvocationResponse := None |}.

(** [if (b) { m }] *)
Definition when (b : bool) (m : M unit) : M unit := if b then m else ret tt.

(** Lines 85-119: read the captured streams and exit code, set the outputs,
    decide success or failure. *)
Definition report (commandId : option string) (v : Poll) : M unit :=
  stdout0 <- property (lastInvocationResponse v) "StandardOutputContent"
               StandardOutputContent ;;
  let stdout := or_default stdout0 "" in
  stderr0 <- property (lastInvocationResponse v) "StandardErrorContent"
               StandardErrorContent ;;
  let stderr := or_default stderr0 "" in
  statusCode <- property (lastInvocationResponse v) "ResponseCode"
                  ResponseCode ;;
  when (truthy stdout) (core.info stdout) ;;;
  when (truthy stderr)
    (core.warning stderr ;;; core.setFailed "Stderr detected") ;;;
  core.setOutput "stdout" (JsString stdout) ;;;
  core.setOutput "stderr" (JsString stderr) ;;;
  core.setOutput "status" (of_string (status v)) ;;;
  core.setOutput "status-code" (of_number statusCode) ;;;
  core.setOutput "command-id" (of_string commandId) ;;;
  if strict_eq (status v) "Failed" then
    core.setFailed ("Command execution failed with status: " +:+
                    template (of_string (status v)))
  else if strict_eq (status v) "TimedOut" then
    core.setFailed "Command execution timed out"
  else if strict_eq (status v) "Cancelled" then
    core.setFailed "Command execution was cancelled"
  else if negb (bool_decide (statusCode = Some 0)) then
    core.setFailed ("Command exited with non-zero status code: " +:+
                    template (of_number statusCode) +:+ ", status: " +:+
                    template (of_string (status v)))
  else
    core.info ("Command completed successfully with status: " +:+
               template (of_string (status v))).

(** The whole procedure, lines 14-124. *)
Definition run_with (fuel : nat) : M unit :=
  try_catch
    (bind dispatch (fun '(instanceId, commandId) =>
     v <- poll fuel instanceId commandId ;;
     report commandId v))
    (fun error => core.setFailed (message error)).

(** [run]: the loop makes at most [maxAttempts] iterations, so this budget is
    never used up (see [run_shape] and [run_with_fuel]). *)
Definition run : M unit := run_with (S maxAttempts).

(** The events of a run in world [w], from a fresh process. *)
Definition trace (w : World) : list Event := events (snd (run w start)).

(** How that run completes. *)
Definition outcome (w : World) : Completion unit := fst (run w start).

(** ** Observations on a trace *)

(** The kinds of events the properties count or look for. *)
Definition is_SetFailed (e : Event) : bool :=
  match e with SetFailed _ => true | _ => false end.

Definition is_SetOutput (e : Event) : bool :=
  match e with SetOutput _ _ => true | _ => false end.

Definition is_Send (e : Event) : bool :=
  match e with Send _ => true | _ => false end.

Definition is_status_check (e : Event) : bool :=
  match e with Send (GetCommandInvocationCommand _) => true | _ => false end.

Definition is_submission (e : Event) : bool :=
  match e with Send (SendCommandCommand _) => true | _ => false end.

(** [core.setFailed] sets the process exit code to failure: a run failed when
    it called it at least once, and succeeded otherwise. *)
Definition failed (t : list Event) : bool := existsb is_SetFailed t.
Definition succeeded (t : list Event) : bool := negb (failed t).

(** The number of events of a kind. *)
Definition count (f : Event -> bool) (t : list Event) : nat :=
  length (List.filter f t).

(** The outputs a trace has set, in order. *)
Definition outputs (t : list Event) : list (string * JsValue) :=
  omap (fun e => match e with SetOutput n v => Some (n, v) | _ => None end) t.

(** ** What a world supplies *)

(** The supplied value of an input is missing when it is absent or empty. *)
Definition missing (w : World) (name : string) : bool :=
  negb (truthy (default "" (inputs w !! name))).

(** The value [core.getInput] hands to [run] for an input. *)
Definition input (w : World) (name : string) : string :=
  trim (default "" (inputs w !! name)).

(** The inputs read with [required: true], in the order [run] reads them. *)
Definition required_inputs : list string := ["instance-id"; "region"; "command"].

(** The [timeout] variable: the timeout-seconds input, or ['3600']. *)
Definition timeout_of (w : World) : string :=
  if truthy (input w "timeout-seconds") then input w "timeout-seconds" else "3600".

(** The submission request a run in [w] builds. *)
Definition submission (w : World) : SendCommandInput :=
  commandParams (input w "instance-id") (input w "command")
    (input w "working-directory") (timeout_of w).

(** The status-check request for command [commandId]. *)
Definition status_check (w : World) (commandId : option string) : Command :=
  GetCommandInvocationCommand
    {| CommandId := commandId; InstanceId := input w "instance-id" |}.

(** The service's answer to the status check sent as request number [i]. *)
Definition answer (w : World) (commandId : option string) (i : nat)
  : Error + Response :=
  service w i (status_check w commandId).

(** The statuses of a command that is still under way. *)
Definition under_way (st : option string) : Prop :=
  st = Some "InProgress" \/ st = Some "Pending".

(** An answer that keeps the loop going: a response whose status is
    InProgress or Pending. *)
Definition pending (a : Error + Response) : bool :=
  match a with
  | inr r => bool_decide (under_way (Status r))
  | inl _ => false
  end.

(** The required inputs are supplied, the region is not blank, and the
    service accepts the submission, handing out [commandId]. *)
Record Submitted (w : World) (commandId : option string) : Prop := {
  submitted_inputs : Forall (fun name => missing w name = false) required_inputs;
  submitted_region : input w "region" <> "";
  submitted_answer :
    exists r c, service w 0 (SendCommandCommand (submission w)) = inr r
                /\ Command_ r = Some c
                /\ Command_CommandId c = commandId
}.

(** The first [k] status checks (requests 1..k) are all answered pending. *)
Definition Polling (w : World) (commandId : option string) (k : nat) : Prop :=
  forall i, (1 <= i <= k)%nat -> pending (answer w commandId i) = true.

(** The poll loop of the run in [w] ends at its [n]-th status check, whose
    response is [r]: the first one that does not satisfy the loop guard. *)
Record Completes (w : World) (commandId : option string) (n : nat)
    (r : Response) : Prop := {
  completes_submitted : Submitted w commandId;
  completes_within : (1 <= n <= maxAttempts)%nat;
  completes_polling : Polling w commandId (n - 1);
  completes_answer : answer w commandId n = inr r;
  completes_stop : ~ under_way (Status r)
}.

(** The events before the first status check, once the submission was
    accepted with [commandId] (see [dispatch_supplied]). *)
Definition prelude (w : World) (commandId : option string) : list Event :=
  [ Info ("Running command on instance " +:+ input w "instance-id" +:+
          " in region " +:+ input w "region");
    Info ("Command: " +:+ input w "command");
    NewSSMClient (input w "region");
    Info "Sending command to SSM...";
    Send (SendCommandCommand (submission w));
    Info ("Command sent with ID: " +:+ template (of_string commandId));
    Info "Waiting for command to complete..." ].

(** The events of one status check, sent as request number [i]
    (see [poll_loop_step]). *)
Definition check_events (w : World) (commandId : option string) (i : nat)
  : list Event :=
  [ Wait 5000; Send (status_check w commandId) ] ++
  match answer w commandId i with
  | inr r => [ Info ("Command status: " +:+ template (of_string (Status r))) ]
  | inl _ => []
  end.

(** The events of the status checks [from], ..., [from + k - 1]. *)
Definition checks_events (w : World) (commandId : option string)
    (from k : nat) : list Event :=
  flat_map (check_events w commandId) (seq from k).

(** The last event of [report]: the decision on state and exit code. *)
Definition verdict (st : option string) (statusCode : option Z) : Event :=
  if decide (st = Some "Failed") then
    SetFailed "Command execution failed with status: Failed"
  else if decide (st = Some "TimedOut") then
    SetFailed "Command execution timed out"
  else if decide (st = Some "Cancelled") then
    SetFailed "Command execution was cancelled"
  else if decide (statusCode = Some 0) then
    Info ("Command completed successfully with status: " +:+
          template (of_string st))
  else
    SetFailed ("Command exited with non-zero status code: " +:+
               template (of_number statusCode) +:+ ", status: " +:+
               template (of_string st)).

(** The five outputs, as [report] sets them for a final response [r]: an
    absent stream counts as the empty string. *)
Definition output_events (commandId : option string) (r : Response) : list Event :=
  [ SetOutput "stdout" (JsString (default "" (StandardOutputContent r)));
    SetOutput "stderr" (JsString (default "" (StandardErrorContent r)));
    SetOutput "status" (of_string (Status r));
    SetOutput "status-code" (of_number (ResponseCode r));
    SetOutput "command-id" (of_string commandId) ].

(** The events that precede the outputs: the captured streams are logged when
    they are not empty, and a non-empty stderr already signals failure. *)
Definition stream_events (r : Response) : list Event :=
  match default "" (StandardOutputContent r) with
  | "" => []
  | out => [ Info out ]
  end ++
  match default "" (StandardErrorContent r) with
  | "" => []
  | err => [ Warning err; SetFailed "Stderr detected" ]
  end.

(** The events of [report] for the final status check's response [r]
    (see [report_spec]). *)
Definition report_events (commandId : option string) (r : Response)
  : list Event :=
  stream_events r ++ output_events commandId r ++
  [ verdict (Status r) (ResponseCode r) ].

(** ** The shapes of a run *)

(** The message of the client-side polling timeout. *)
Definition timeout_message : string :=
  "Command execution timeout - exceeded maximum wait time".

(** The first required input that is missing, in the order [run] reads them. *)
Definition first_missing (w : World) : option string :=
  List.find (missing w) required_inputs.

(** The two log lines that announce the run. *)
Definition announce_events (w : World) : list Event := firstn 2 (prelude w None).

(** The events up to and including the submission request. *)
Definition submit_events (w : World) : list Event := firstn 5 (prelude w None).

(** Every run has one of seven shapes (see [run_shape]). *)
Inductive Shape (w : World) : list Event -> Prop :=
  | shape_missing name :
      first_missing w = Some name ->
      Shape w [SetFailed ("Input required and not supplied: " +:+ name)]
  | shape_no_region :
      first_missing w = None ->
      input w "region" = "" ->
      Shape w (announce_events w ++ [SetFailed "Region is missing"])
  | shape_rejected e :
      first_missing w = None ->
      input w "region" <> "" ->
      service w 0 (SendCommandCommand (submission w)) = inl e ->
      Shape w (submit_events w ++ [SetFailed (message e)])
  | shape_no_command r :
      first_missing w = None ->
      input w "region" <> "" ->
      service w 0 (SendCommandCommand (submission w)) = inr r ->
      Command_ r = None ->
      Shape w (submit_events w ++
               [SetFailed "Cannot read properties of undefined (reading 'CommandId')"])
  | shape_check_rejected commandId n e :
      Submitted w commandId ->
      (1 <= n <= maxAttempts)%nat ->
      Polling w commandId (n - 1) ->
      answer w commandId n = inl e ->
      Shape w (prelude w commandId ++ checks_events w commandId 1 n ++
               [SetFailed (message e)])
  | shape_exhausted commandId :
      Submitted w commandId ->
      Polling w commandId maxAttempts ->
      Shape w (prelude w commandId ++ checks_events w commandId 1 maxAttempts ++
               [SetFailed timeout_message])
  | shape_completes commandId n r :
      Completes w commandId n r ->
      Shape w (prelude w commandId ++ checks_events w commandId 1 n ++
               report_events commandId r).

(** ** Vocabulary of the properties *)

(** The states the verdict reports as failures. *)
Definition failure_state (st : option string) : Prop :=
  st = Some "Failed" \/ st = Some "TimedOut" \/ st = Some "Cancelled".

(** The five messages a run whose poll loop ended can fail with. *)
Definition failure_messages (code : option Z) (st : option string) : list string :=
  [ "Stderr detected";
    "Command execution failed with status: Failed";
    "Command execution timed out";
    "Command execution was cancelled";
    "Command exited with non-zero status code: " +:+ template (of_number code) +:+
      ", status: " +:+ template (of_string st) ].

(** The terminal states as the specification lists them. The code keeps no
    such list: its loop stops when [loop_condition] fails. *)
Definition terminal_states : list string :=
  ["Success"; "Failed"; "Cancelled"; "TimedOut"].

(** Membership in that list. *)
Definition terminal (st : option string) : bool :=
  match st with
  | Some s => bool_decide (s ∈ terminal_states)
  | None => false
  end.

(** The names of the outputs, in the order [report] sets them. *)
Definition output_names : list string :=
  ["stdout"; "stderr"; "status"; "status-code"; "command-id"].

(** Every submission request in a trace is [submission w]. *)
Definition only_submission (w : World) (e : Event) : Prop :=
  forall req, e = Send (SendCommandCommand req) -> req = submission w.

(** The world [w] with the timeout-seconds input set to [t], or removed. *)
Definition with_timeout (t : option string) (w : World) : World :=
  {| inputs := match t with
               | Some s => <[ "timeout-seconds" := s ]> (inputs w)
               | None => delete "timeout-seconds" (inputs w)
               end;
     service := service w |}.

(** The service's answer to a submission does not depend on the submitted
    TimeoutSeconds. *)
Definition timeout_blind (w : World) : Prop :=
  forall n a b,
    InstanceIds a = InstanceIds b -> DocumentName a = DocumentName b ->
    Parameters a = Parameters b ->
    service w n (SendCommandCommand a) = service w n (SendCommandCommand b).

(** ** Deciding the world-level conditions *)

(** [Submitted], decided. *)
Definition submittedb (w : World) (commandId : option string) : bool :=
  forallb (fun name => negb (missing w name)) required_inputs &&
  negb (bool_decide (input w "region" = "")) &&
  match service w 0 (SendCommandCommand (submission w)) with
  | inr r =>
      match Command_ r with
      | Some c => bool_decide (Command_CommandId c = commandId)
      | None => false
      end
  | inl _ => false
  end.

(** [Polling], decided. *)
Definition pollingb (w : World) (commandId : option string) (k : nat) : bool :=
  forallb (fun i => pending (answer w commandId i)) (seq 1 k).

(** ** Example worlds *)

(** The three required inputs, and nothing else. *)
Definition example_inputs : gmap string string :=
  {[ "instance-id" := "i-0123456789abcdef0";
     "region" := "eu-west-1";
     "command" := "uptime" ]}.

(** The answer to an accepted submission. *)
Definition accepted : Response :=
  {| Command_ := Some {| Command_CommandId := Some "cmd-1" |};
     Status := Some "Pending";
     StandardOutputContent := None;
     StandardErrorContent := None;
     ResponseCode := None |}.

(** An invocation record as a status check returns it. *)
Definition invocation (st : string) (code : Z) (out err : option string)
  : Response :=
  {| Command_ := None;
     Status := Some st;
     StandardOutputContent := out;
     StandardErrorContent := err;
     ResponseCode := Some code |}.

(** A service that accepts the submission and answers the [i]-th status check
    with the [i]-th record of [script], and with [rest] once it is used up. *)
Definition scripted (script : list Response) (rest : Response)
  : nat -> Command -> Error + Response :=
  fun n _ =>
    match n with
    | O => inr accepted
    | S i => inr (nth i script rest)
    end.

(** A check that finds the command still running. *)
Definition in_progress : Response := invocation "InProgress" (-1) None None.

(** One check in progress, then success. *)
Definition world_success : World :=
  {| inputs := example_inputs;
     service := scripted [in_progress]
                  (invocation "Success" 0 (Some "up 3 days") None) |}.

(** Success with exit code 0, but output on stderr. *)
Definition world_stderr : World :=
  {| inputs := example_inputs;
     service := scripted []
                  (invocation "Success" 0 (Some "ok") (Some "warning: disk")) |}.

(** Success with exit code 2. *)
Definition world_exit2 : World :=
  {| inputs := example_inputs;
     service := scripted [] (invocation "Success" 2 None None) |}.

(** Success whose response carries neither stream. *)
Definition world_no_streams : World :=
  {| inputs := example_inputs;
     service := scripted [] (invocation "Success" 0 None None) |}.

(** The first check answers Delayed; a later check would answer Success. *)
Definition world_delayed : World :=
  {| inputs := example_inputs;
     service := scripted [invocation "Delayed" (-1) None None]
                  (invocation "Success" 0 None None) |}.

(** The first 119 checks answer InProgress, every later one Delayed, with
    exit code 0 reported. *)
Definition world_late_delayed : World :=
  {| inputs := example_inputs;
     service := scripted (replicate 119 in_progress)
                  (invocation "Delayed" 0 None None) |}.

(** Every check answers InProgress. *)
Definition world_stuck : World :=
  {| inputs := <[ "timeout-seconds" := "30" ]> example_inputs;
     service := scripted [] in_progress |}.

(** The service rejects the first request, and would accept a second one. *)
Definition world_rejected : World :=
  {| inputs := example_inputs;
     service := fun n _ =>
       match n with
       | O => inl {| message := "AccessDeniedException" |}
       | S _ => inr accepted
       end |}.

(** No region is supplied. *)
Definition world_no_region : World :=
  {| inputs := delete "region" example_inputs;
     service := scripted [] in_progress |}.

(** A working directory and a timeout are supplied. *)
Definition world_workdir : World :=
  {| inputs := <[ "working-directory" := "/srv/app" ]>
                 (<[ "timeout-seconds" := "90" ]> example_inputs);
     service := scripted [] (invocation "Success" 0 None None) |}.

(** ** Further observations *)

(** The failure signals of a trace, in order. *)
Definition failure_signals (t : list Event) : list Event :=
  List.filter is_SetFailed t.

Definition is_Wait (e : Event) : bool :=
  match e with Wait _ => true | _ => false end.

Definition is_Warning (e : Event) : bool :=
  match e with Warning _ => true | _ => false end.

(** The time a trace spends in [wait], in milliseconds. *)
Definition waited (t : list Event) : Z :=
  foldr (fun e acc => match e with Wait ms => ms + acc | _ => acc end) 0 t.

(** Every status check of [t] comes directly after a [wait] of five seconds;
    [prev] is the event before [t]. *)
Fixpoint spaced (prev : option Event) (t : list Event) : bool :=
  match t with
  | [] => true
  | e :: t' =>
      (if is_status_check e
       then match prev with Some (Wait 5000) => true | _ => false end
       else true) && spaced (Some e) t'
  end.

(** The requests of [t] come in order: a submission is sent only when none
    was sent before, and a status check only after a submission;
    [submitted] tells whether a submission was sent before [t]. *)
Fixpoint requests_in_order (submitted : bool) (t : list Event) : bool :=
  match t with
  | [] => true
  | e :: t' =>
      if is_submission e then negb submitted && requests_in_order true t'
      else if is_status_check e then submitted && requests_in_order submitted t'
      else requests_in_order submitted t'
  end.

(** ** Further example worlds *)

(** A service that accepts the submission, answers the first status check
    with InProgress and rejects the second. *)
Definition world_check_rejected : World :=
  {| inputs := example_inputs;
     service := fun n _ =>
       match n with
       | 0%nat => inr accepted
       | 1%nat => inr in_progress
       | _ => inl {| message := "ThrottlingException" |}
       end |}.

(** The answer to the submission carries no Command. *)
Definition world_no_command : World :=
  {| inputs := example_inputs;
     service := fun _ _ =>
       inr {| Command_ := None; Status := None;
              StandardOutputContent := None; StandardErrorContent := None;
              ResponseCode := None |} |}.

(** Success arrives at the 120th status check. *)
Definition world_last_chance : World :=
  {| inputs := example_inputs;
     service := scripted (replicate 119 in_progress)
                  (invocation "Success" 0 (Some "done") None) |}.

(** The final response reports Success but carries no ResponseCode. *)
Definition world_no_code : World :=
  {| inputs := example_inputs;
     service := scripted []
       {| Command_ := None; Status := Some "Success";
          StandardOutputContent := None; StandardErrorContent := None;
          ResponseCode := None |} |}.

(** The first status check's response carries no Status. *)
Definition world_no_status : World :=
  {| inputs := example_inputs;
     service := scripted []
       {| Command_ := None; Status := None;
          StandardOutputContent := None; StandardErrorContent := None;
          ResponseCode := Some 0 |} |}.

(** State Failed with exit code 1 and output on stderr. *)
Definition world_failed_stderr : World :=
  {| inputs := example_inputs;
     service := scripted [] (invocation "Failed" 1 None (Some "boom")) |}.

(** The timeout-seconds input is not a number. *)
Definition world_bad_timeout : World :=
  {| inputs := <[ "timeout-seconds" := "soon" ]> example_inputs;
     service := scripted [] (invocation "Success" 0 None None) |}.

(** Only the command is supplied. *)
Definition world_only_command : World :=
  {| inputs := {[ "command" := "uptime" ]};
     service := scripted [] in_progress |}.

(** The region is supplied, but consists of a space only. *)
Definition world_blank_region : World :=
  {| inputs := <[ "region" := " " ]> example_inputs;
     service := scripted [] (invocation "Success" 0 None None) |}.

(** The working directory is supplied, but consists of spaces only. *)
Definition world_blank_workdir : World :=
  {| inputs := <[ "working-directory" := "  " ]> example_inputs;
     service := scripted [] (invocation "Success" 0 None None) |}.

(** The working directory is supplied with a space on either side. *)
Definition world_padded_workdir : World :=
  {| inputs := <[ "working-directory" := " /srv/app " ]> example_inputs;
     service := scripted [] (invocation "Success" 0 None None) |}.

(** U+00A0, the no-break space, in UTF-8. *)
Definition nbsp : string :=
  String (ascii_of_N 194) (String (ascii_of_N 160) "").

(** U+FEFF, the byte order mark, in UTF-8. *)
Definition bom : string :=
  String (ascii_of_N 239) (String (ascii_of_N 187) (String (ascii_of_N 191) "")).

(** The instance id and the timeout are padded with no-break spaces, and the
    working directory consists of one. *)
Definition world_nbsp : World :=
  {| inputs := <[ "instance-id" := nbsp +:+ "i-0123456789abcdef0" +:+ nbsp ]>
                 (<[ "working-directory" := nbsp ]>
                    (<[ "timeout-seconds" := nbsp +:+ "90" ]> example_inputs));
     service := scripted [] (invocation "Success" 0 None None) |}.

(** The timeout-seconds input is 2^53 + 1, which no double holds. *)
Definition world_long_timeout : World :=
  {| inputs := <[ "timeout-seconds" := "9007199254740993" ]> example_inputs;
     service := scripted [] (invocation "Success" 0 None None) |}.

(** ** Proof automation *)

(** Flatten the event list of a process built by successive [emit]s. *)
Ltac norm_events :=
  unfold ret, throw, log, emit; cbn [events sent fst snd];
  rewrite <- ?app_assoc; cbn [app].

(** Membership in an explicit list. *)
Ltac elem_of_explicit :=
  repeat (apply elem_of_cons; first [left; reflexivity | right]).

(** * Properties *)

(** ** The monad's equations *)

Lemma bind_ret {A B} (a : A) (k : A -> M B) w p : bind (ret a) k w p = k a w p.
Proof. reflexivity. Qed.

Lemma bind_log {B} e (k : unit -> M B) w p :
  bind (log e) k w p = k tt w (emit e p).
Proof. reflexivity. Qed.

Lemma bind_throw {A B} msg (k : A -> M B) w p :
  bind (throw msg) k w p = (Throw {| message := msg |}, p).
Proof. reflexivity. Qed.

Lemma bind_normal {A B} (m : M A) (k : A -> M B) w p a p' :
  m w p = (Normal a, p') -> bind m k w p = k a w p'.
Proof. intros H. unfold bind. now rewrite H. Qed.

Lemma bind_thrown {A B} (m : M A) (k : A -> M B) w p e p' :
  m w p = (Throw e, p') -> bind m k w p = (Throw e, p').
Proof. intros H. unfold bind. now rewrite H. Qed.

(** ** [core.getInput] *)

Lemma truthy_false s : truthy s = false <-> s = "".
Proof. destruct s; simpl; split; congruence. Qed.

Lemma truthy_true s : truthy s = true <-> s <> "".
Proof. destruct s; simpl; split; congruence. Qed.

Lemma getInput_optional name w p :
  core.getInput name false w p = (Normal (input w name), p).
Proof. reflexivity. Qed.

Lemma getInput_supplied name w p :
  missing w name = false ->
  core.getInput name true w p = (Normal (input w name), p).
Proof.
  unfold missing, core.getInput, input. intros H.
  apply negb_false_iff in H. now rewrite H.
Qed.

Lemma getInput_missing name w p :
  missing w name = true ->
  core.getInput name true w p =
  (Throw {| message := "Input required and not supplied: " +:+ name |}, p).
Proof.
  unfold missing, core.getInput. intros H.
  apply negb_true_iff in H. now rewrite H.
Qed.

Lemma missing_spec w name :
  missing w name = true <-> inputs w !! name = None \/ inputs w !! name = Some "".
Proof.
  unfold missing. destruct (inputs w !! name) as [[|c s]|]; simpl; split;
    intros H; try discriminate; auto; destruct H; discriminate.
Qed.

(** ** Submission *)

Lemma send_answer c w p :
  send c w p =
  (match service w (sent p) c with inr r => Normal r | inl e => Throw e end,
   {| events := events p ++ [Send c]; sent := S (sent p) |}).
Proof. unfold send. now destruct (service w (sent p) c). Qed.

(** [dispatch] with the required inputs supplied: everything up to the
    submission's answer. *)
Lemma dispatch_supplied w p :
  Forall (fun name => missing w name = false) required_inputs ->
  dispatch w p =
  if decide (input w "region" = "") then
    (Throw {| message := "Region is missing" |},
     {| events := events p ++ announce_events w; sent := sent p |})
  else
    match service w (sent p) (SendCommandCommand (submission w)) with
    | inr r =>
        match Command_ r with
        | Some c =>
            (Normal (input w "instance-id", Command_CommandId c),
             {| events := events p ++ firstn 6 (prelude w (Command_CommandId c));
                sent := S (sent p) |})
        | None =>
            (Throw {| message :=
                        "Cannot read properties of undefined (reading 'CommandId')" |},
             {| events := events p ++ submit_events w;
                sent := S (sent p) |})
        end
    | inl e =>
        (Throw e, {| events := events p ++ submit_events w;
                     sent := S (sent p) |})
    end.
Proof.
  intros Hin. unfold required_inputs in Hin.
  apply Forall_cons in Hin as [Hi Hin].
  apply Forall_cons in Hin as [Hr Hin].
  apply Forall_cons in Hin as [Hc _].
  unfold dispatch.
  rewrite (bind_normal _ _ _ _ _ _ (getInput_supplied _ _ _ Hi)).
  rewrite (bind_normal _ _ _ _ _ _ (getInput_supplied _ _ _ Hr)).
  rewrite (bind_normal _ _ _ _ _ _ (getInput_supplied _ _ _ Hc)).
  rewrite (bind_normal _ _ _ _ _ _ (getInput_optional _ _ _)).
  rewrite (bind_normal _ _ _ _ _ _ (getInput_optional _ _ _)).
  unfold core.info. rewrite !bind_log.
  fold (timeout_of w). fold (submission w).
  unfold new_SSMClient, announce_events, submit_events.
  destruct (decide (input w "region" = "")) as [Hreg|Hreg].
  { apply truthy_false in Hreg. rewrite Hreg, bind_throw. now norm_events. }
  apply truthy_true in Hreg. rewrite Hreg, !bind_log.
  unfold bind at 1. rewrite send_answer. cbn [emit events sent].
  destruct (service w (sent p) (SendCommandCommand (submission w))) as [e|r].
  - now norm_events.
  - unfold property. destruct (Command_ r) as [c|].
    + rewrite bind_ret, bind_log. now norm_events.
    + rewrite bind_throw. now norm_events.
Qed.

(** ** The loop guard *)

Lemma strict_eq_true a lit : strict_eq a lit = true <-> a = Some lit.
Proof.
  destruct a as [s|]; simpl; [|split; discriminate].
  rewrite bool_decide_eq_true. split; [now intros -> | now intros [= ->]].
Qed.

Lemma strict_eq_false a lit : strict_eq a lit = false <-> a <> Some lit.
Proof.
  rewrite <- strict_eq_true. now destruct (strict_eq a lit).
Qed.

Lemma loop_condition_true st :
  loop_condition st = true <-> st = Some "InProgress" \/ st = Some "Pending".
Proof.
  unfold loop_condition. rewrite orb_true_iff, !strict_eq_true. reflexivity.
Qed.

Lemma loop_condition_under_way st : loop_condition st = true <-> under_way st.
Proof. apply loop_condition_true. Qed.

Lemma loop_condition_stop st : loop_condition st = false <-> ~ under_way st.
Proof.
  rewrite <- loop_condition_under_way. now destruct (loop_condition st).
Qed.

Lemma pending_loop_condition r : pending (inr r) = loop_condition (Status r).
Proof.
  unfold pending. destruct (loop_condition (Status r)) eqn:E.
  - apply bool_decide_eq_true, loop_condition_under_way, E.
  - apply bool_decide_eq_false, loop_condition_stop, E.
Qed.

(** ** The poll loop *)

Section PollLoop.

Variable w : World.
Variable commandId : option string.

Let instanceId : string := input w "instance-id".

Lemma poll_loop_stop fuel v p :
  loop_condition (status v) = false ->
  poll_loop fuel instanceId commandId v w p = (Normal v, p).
Proof. intros H. destruct fuel; simpl; now rewrite H. Qed.

Lemma poll_loop_cap fuel v p :
  loop_condition (status v) = true ->
  (maxAttempts <= attempts v)%nat ->
  poll_loop (S fuel) instanceId commandId v w p =
  (Throw {| message := "Command execution timeout - exceeded maximum wait time" |},
   p).
Proof.
  intros H Hcap. cbn [poll_loop]. rewrite H.
  apply Nat.leb_le in Hcap. now rewrite Hcap.
Qed.

(** One iteration: wait, check, log the status, count the attempt. *)
Lemma poll_loop_step fuel v p :
  loop_condition (status v) = true ->
  (attempts v < maxAttempts)%nat ->
  poll_loop (S fuel) instanceId commandId v w p =
  let p' := {| events := events p ++ check_events w commandId (sent p);
               sent := S (sent p) |} in
  match answer w commandId (sent p) with
  | inr r =>
      poll_loop fuel instanceId commandId
        {| status := Status r;
           attempts := S (attempts v);
           lastInvocationResponse := Some r |} w p'
  | inl e => (Throw e, p')
  end.
Proof.
  intros H Hlt. cbn [poll_loop]. rewrite H.
  apply Nat.leb_gt in Hlt. rewrite Hlt.
  unfold wait. rewrite bind_log. unfold bind at 1. rewrite send_answer.
  unfold check_events, answer, status_check. fold instanceId.
  destruct (service w _ _) as [e|r]; cbn zeta.
  - now norm_events.
  - unfold core.info. rewrite bind_log. now norm_events.
Qed.

Lemma checks_events_S from k :
  checks_events w commandId from (S k) =
  check_events w commandId from ++ checks_events w commandId (S from) k.
Proof. reflexivity. Qed.

Lemma checks_events_snoc from k :
  checks_events w commandId from (S k) =
  checks_events w commandId from k ++ check_events w commandId (from + k).
Proof.
  unfold checks_events. rewrite seq_S, flat_map_app. simpl.
  now rewrite app_nil_r.
Qed.

(** [k] pending answers in a row take the loop through [k] iterations. *)
Lemma poll_loop_pending k : forall fuel v p,
  loop_condition (status v) = true ->
  (attempts v + k <= maxAttempts)%nat ->
  (forall i, (sent p <= i < sent p + k)%nat ->
             pending (answer w commandId i) = true) ->
  exists v',
    loop_condition (status v') = true /\
    attempts v' = (attempts v + k)%nat /\
    poll_loop (k + fuel) instanceId commandId v w p =
    poll_loop fuel instanceId commandId v' w
      {| events := events p ++ checks_events w commandId (sent p) k;
         sent := (sent p + k)%nat |}.
Proof.
  induction k as [|k IH]; intros fuel v p Hc Hk Hpend.
  - exists v. split; [assumption|]. split; [lia|].
    unfold checks_events. simpl. rewrite app_nil_r, Nat.add_0_r.
    now destruct p.
  - assert (Hfirst : pending (answer w commandId (sent p)) = true)
      by (apply Hpend; lia).
    change (S k + fuel)%nat with (S (k + fuel)).
    rewrite poll_loop_step by (assumption || lia). cbn zeta.
    destruct (answer w commandId (sent p)) as [e|r] eqn:Ha;
      [discriminate|]. rewrite pending_loop_condition in Hfirst.
    destruct (IH fuel
                {| status := Status r; attempts := S (attempts v);
                   lastInvocationResponse := Some r |}
                {| events := events p ++ check_events w commandId (sent p);
                   sent := S (sent p) |})
      as (v' & Hc' & Ha' & Heq).
    + assumption.
    + cbn [attempts]. lia.
    + cbn [sent]. intros i Hi. apply Hpend. lia.
    + exists v'. split; [assumption|]. split; [cbn [attempts] in Ha'; lia|].
      rewrite Heq. cbn [events sent].
      rewrite checks_events_S, <- app_assoc.
      now replace (S (sent p) + k)%nat with (sent p + S k)%nat by lia.
Qed.

(** The loop is bounded: any fuel above the attempts left gives the same
    completion, and it is not [Unfinished]. *)
Lemma poll_loop_fuel k : forall fuel1 fuel2 v p,
  (maxAttempts - attempts v <= k)%nat ->
  (k < fuel1)%nat -> (k < fuel2)%nat ->
  poll_loop fuel1 instanceId commandId v w p =
  poll_loop fuel2 instanceId commandId v w p /\
  fst (poll_loop fuel1 instanceId commandId v w p) <> Unfinished.
Proof.
  induction k as [|k IH]; intros fuel1 fuel2 v p Hk H1 H2;
    destruct (loop_condition (status v)) eqn:Hc;
    try (rewrite !poll_loop_stop by assumption; now split).
  - destruct fuel1 as [|f1]; [lia|]. destruct fuel2 as [|f2]; [lia|].
    rewrite !poll_loop_cap by (assumption || lia). now split.
  - destruct fuel1 as [|f1]; [lia|]. destruct fuel2 as [|f2]; [lia|].
    destruct (Nat.le_gt_cases maxAttempts (attempts v)) as [Hcap|Hlt].
    + rewrite !poll_loop_cap by assumption. now split.
    + rewrite !poll_loop_step by assumption. cbn zeta.
      destruct (answer w commandId (sent p)); [now split|].
      apply IH; cbn [attempts]; lia.
Qed.

End PollLoop.

(** ** The report *)

Lemma or_default_empty o : or_default o "" = default "" o.
Proof. destruct o as [[|c s]|]; reflexivity. Qed.

Lemma strict_eq_decide st lit : strict_eq st lit = bool_decide (st = Some lit).
Proof.
  destruct st as [s|]; cbn [strict_eq]; [|reflexivity].
  apply bool_decide_ext. split; congruence.
Qed.

Lemma report_spec commandId v r w p :
  lastInvocationResponse v = Some r ->
  status v = Status r ->
  report commandId v w p =
  (Normal tt, {| events := events p ++ report_events commandId r;
                 sent := sent p |}).
Proof.
  intros Hlast Hst. unfold report, property.
  rewrite Hlast, Hst, !bind_ret, !or_default_empty, !strict_eq_decide.
  unfold report_events, stream_events, output_events, verdict, when,
    core.info, core.warning, core.setFailed, core.setOutput.
  destruct (default "" (StandardOutputContent r)) as [|c1 out];
    destruct (default "" (StandardErrorContent r)) as [|c2 err];
    cbn [truthy]; rewrite ?bind_log, ?bind_ret;
    repeat case_bool_decide; repeat case_decide; try contradiction;
    try match goal with E : Status r = Some "Failed" |- _ => rewrite E end;
    unfold bind, log, ret, emit; cbn beta iota delta [events sent negb];
    now rewrite <- ?app_assoc.
Qed.

(** ** Whole runs *)

Section Runs.

Variable w : World.
Variable commandId : option string.

(** The process once the submission was accepted. *)
Let submitted : Process :=
  {| events := firstn 6 (prelude w commandId); sent := 1 |}.

Lemma dispatch_submitted :
  Submitted w commandId ->
  dispatch w start = (Normal (input w "instance-id", commandId), submitted).
Proof.
  intros [Hin Hreg (r & c & Hr & Hc & Hid)].
  rewrite dispatch_supplied by assumption.
  destruct (decide (input w "region" = "")); [contradiction|].
  cbn [sent start]. rewrite Hr, Hc, Hid. reflexivity.
Qed.

(** The loop ends at the [n]-th check. *)
Lemma poll_completes fuel n r :
  (maxAttempts < fuel)%nat ->
  (1 <= n <= maxAttempts)%nat ->
  Polling w commandId (n - 1) ->
  answer w commandId n = inr r ->
  loop_condition (Status r) = false ->
  poll fuel (input w "instance-id") commandId w submitted =
  (Normal {| status := Status r; attempts := n;
             lastInvocationResponse := Some r |},
   {| events := prelude w commandId ++ checks_events w commandId 1 n;
      sent := S n |}).
Proof.
  intros Hfuel Hn Hpoll Hans Hstop. unfold poll, core.info.
  rewrite bind_log.
  set (v0 := {| status := Some "InProgress"; attempts := 0;
                lastInvocationResponse := None |}).
  set (p0 := emit _ submitted).
  destruct (poll_loop_pending w commandId (n - 1) (fuel - (n - 1)) v0 p0)
    as (v' & Hc' & Ha' & Heq).
  - reflexivity.
  - cbn [attempts v0]. lia.
  - intros i Hi. apply Hpoll. cbn [sent p0 emit submitted] in Hi. lia.
  - replace (n - 1 + (fuel - (n - 1)))%nat with fuel in Heq by lia.
    rewrite Heq. cbn [attempts v0] in Ha'.
    destruct (fuel - (n - 1))%nat as [|f] eqn:Hf; [lia|].
    rewrite poll_loop_step by (assumption || lia). cbn zeta.
    cbn [sent events p0 emit submitted].
    replace (1 + (n - 1))%nat with n by lia. rewrite Hans.
    rewrite poll_loop_stop by assumption.
    replace (S (attempts v')) with n by lia.
    f_equal. f_equal.
    rewrite <- !app_assoc. cbn [app firstn prelude].
    replace n with (S (n - 1)) at 3 by lia.
    rewrite checks_events_snoc.
    replace (1 + (n - 1))%nat with n by lia.
    now rewrite <- ?app_assoc.
Qed.

(** The loop runs into the attempt cap. *)
Lemma poll_exhausts fuel :
  (maxAttempts < fuel)%nat ->
  Polling w commandId maxAttempts ->
  poll fuel (input w "instance-id") commandId w submitted =
  (Throw {| message := timeout_message |},
   {| events := prelude w commandId ++ checks_events w commandId 1 maxAttempts;
      sent := S maxAttempts |}).
Proof.
  intros Hfuel Hpoll. unfold poll, core.info. rewrite bind_log.
  set (v0 := {| status := Some "InProgress"; attempts := 0;
                lastInvocationResponse := None |}).
  set (p0 := emit _ submitted).
  destruct (poll_loop_pending w commandId maxAttempts (fuel - maxAttempts) v0 p0)
    as (v' & Hc' & Ha' & Heq).
  - reflexivity.
  - cbn [attempts v0]. lia.
  - intros i Hi. apply Hpoll. cbn [sent p0 emit submitted] in Hi. lia.
  - replace (maxAttempts + (fuel - maxAttempts))%nat with fuel in Heq by lia.
    rewrite Heq. cbn [attempts v0] in Ha'.
    destruct (fuel - maxAttempts)%nat as [|f] eqn:Hf; [lia|].
    rewrite poll_loop_cap by (assumption || lia).
    unfold timeout_message. cbn [sent events p0 emit submitted].
    now rewrite <- ?app_assoc.
Qed.

(** A run whose loop ends at the [n]-th check with response [r]. *)
Lemma run_completes n r :
  Completes w commandId n r ->
  run w start =
  (Normal tt,
   {| events := prelude w commandId ++ checks_events w commandId 1 n ++
                report_events commandId r;
      sent := S n |}).
Proof.
  intros [Hsub Hn Hpoll Hans Hstop%loop_condition_stop].
  unfold run, run_with, try_catch.
  rewrite (bind_normal _ _ _ _ _ _ (dispatch_submitted Hsub)).
  erewrite bind_normal
    by (apply poll_completes; [lia | eassumption..]).
  rewrite report_spec with (r := r) by reflexivity.
  cbn [events sent]. now rewrite <- app_assoc.
Qed.

(** A run whose first [maxAttempts] checks are all answered pending. *)
Lemma run_exhausts :
  Submitted w commandId ->
  Polling w commandId maxAttempts ->
  run w start =
  (Normal tt,
   {| events := prelude w commandId ++
                checks_events w commandId 1 maxAttempts ++
                [SetFailed timeout_message];
      sent := S maxAttempts |}).
Proof.
  intros Hsub Hpoll. unfold run, run_with, try_catch.
  rewrite (bind_normal _ _ _ _ _ _ (dispatch_submitted Hsub)).
  erewrite bind_thrown by (apply poll_exhausts; [lia | assumption]).
  unfold core.setFailed, log, emit. cbn [events sent message].
  now rewrite <- app_assoc.
Qed.

End Runs.

(** ** Runs that end in the [catch] clause *)

Lemma first_missing_None w :
  first_missing w = None ->
  Forall (fun name => missing w name = false) required_inputs.
Proof.
  unfold first_missing, required_inputs. cbn [List.find].
  destruct (missing w "instance-id") eqn:Hi; [discriminate|].
  destruct (missing w "region") eqn:Hr; [discriminate|].
  destruct (missing w "command") eqn:Hc; [discriminate|].
  intros _. repeat constructor; assumption.
Qed.

Lemma first_missing_supplied w :
  Forall (fun name => missing w name = false) required_inputs ->
  first_missing w = None.
Proof.
  unfold first_missing, required_inputs. intros H.
  apply Forall_cons in H as [Hi H].
  apply Forall_cons in H as [Hr H].
  apply Forall_cons in H as [Hc _].
  cbn [List.find]. now rewrite Hi, Hr, Hc.
Qed.

Lemma first_missing_Some w name :
  first_missing w = Some name ->
  name ∈ required_inputs /\ missing w name = true.
Proof.
  unfold first_missing. intros H. apply find_some in H as [Hin Hm].
  split; [now apply list_elem_of_In | assumption].
Qed.

Lemma dispatch_missing w p name :
  first_missing w = Some name ->
  dispatch w p =
  (Throw {| message := "Input required and not supplied: " +:+ name |}, p).
Proof.
  unfold first_missing, required_inputs, dispatch. cbn [List.find].
  destruct (missing w "instance-id") eqn:Hi.
  { intros [= <-]. now rewrite (bind_thrown _ _ _ _ _ _ (getInput_missing _ _ _ Hi)). }
  rewrite (bind_normal _ _ _ _ _ _ (getInput_supplied _ _ _ Hi)).
  destruct (missing w "region") eqn:Hr.
  { intros [= <-]. now rewrite (bind_thrown _ _ _ _ _ _ (getInput_missing _ _ _ Hr)). }
  rewrite (bind_normal _ _ _ _ _ _ (getInput_supplied _ _ _ Hr)).
  destruct (missing w "command") eqn:Hc; [|discriminate].
  intros [= <-]. now rewrite (bind_thrown _ _ _ _ _ _ (getInput_missing _ _ _ Hc)).
Qed.

Lemma run_missing w name :
  first_missing w = Some name ->
  run w start =
  (Normal tt,
   {| events := [SetFailed ("Input required and not supplied: " +:+ name)];
      sent := 0 |}).
Proof.
  intros H. unfold run, run_with, try_catch.
  now rewrite (bind_thrown _ _ _ _ _ _ (dispatch_missing _ _ _ H)).
Qed.

Lemma run_no_region w :
  first_missing w = None ->
  input w "region" = "" ->
  run w start =
  (Normal tt,
   {| events := announce_events w ++ [SetFailed "Region is missing"];
      sent := 0 |}).
Proof.
  intros Hin Hreg. apply first_missing_None in Hin.
  assert (Hd : dispatch w start =
               (Throw {| message := "Region is missing" |},
                {| events := announce_events w; sent := 0 |})).
  { rewrite dispatch_supplied by assumption.
    now destruct (decide (input w "region" = "")). }
  unfold run, run_with, try_catch.
  now rewrite (bind_thrown _ _ _ _ _ _ Hd).
Qed.

Lemma run_rejected w e :
  first_missing w = None ->
  input w "region" <> "" ->
  service w 0 (SendCommandCommand (submission w)) = inl e ->
  run w start =
  (Normal tt,
   {| events := submit_events w ++ [SetFailed (message e)]; sent := 1 |}).
Proof.
  intros Hin Hreg He. apply first_missing_None in Hin.
  assert (Hd : dispatch w start =
               (Throw e, {| events := submit_events w; sent := 1 |})).
  { rewrite dispatch_supplied by assumption.
    destruct (decide (input w "region" = "")); [contradiction|].
    cbn [sent start]. now rewrite He. }
  unfold run, run_with, try_catch.
  now rewrite (bind_thrown _ _ _ _ _ _ Hd).
Qed.

Lemma run_no_command w r :
  first_missing w = None ->
  input w "region" <> "" ->
  service w 0 (SendCommandCommand (submission w)) = inr r ->
  Command_ r = None ->
  run w start =
  (Normal tt,
   {| events := submit_events w ++
                [SetFailed "Cannot read properties of undefined (reading 'CommandId')"];
      sent := 1 |}).
Proof.
  intros Hin Hreg Hr Hc. apply first_missing_None in Hin.
  assert (Hd : dispatch w start =
               (Throw {| message :=
                   "Cannot read properties of undefined (reading 'CommandId')" |},
                {| events := submit_events w; sent := 1 |})).
  { rewrite dispatch_supplied by assumption.
    destruct (decide (input w "region" = "")); [contradiction|].
    cbn [sent start]. now rewrite Hr, Hc. }
  unfold run, run_with, try_catch.
  now rewrite (bind_thrown _ _ _ _ _ _ Hd).
Qed.

Lemma poll_rejected w commandId fuel n e :
  (maxAttempts < fuel)%nat ->
  (1 <= n <= maxAttempts)%nat ->
  Polling w commandId (n - 1) ->
  answer w commandId n = inl e ->
  poll fuel (input w "instance-id") commandId w
    {| events := firstn 6 (prelude w commandId); sent := 1 |} =
  (Throw e,
   {| events := prelude w commandId ++ checks_events w commandId 1 n;
      sent := S n |}).
Proof.
  intros Hfuel Hn Hpoll Hans. unfold poll, core.info. rewrite bind_log.
  set (v0 := {| status := Some "InProgress"; attempts := 0;
                lastInvocationResponse := None |}).
  set (p0 := emit _ _).
  destruct (poll_loop_pending w commandId (n - 1) (fuel - (n - 1)) v0 p0)
    as (v' & Hc' & Ha' & Heq).
  - reflexivity.
  - cbn [attempts v0]. lia.
  - intros i Hi. apply Hpoll. cbn [sent p0 emit] in Hi. lia.
  - replace (n - 1 + (fuel - (n - 1)))%nat with fuel in Heq by lia.
    rewrite Heq. cbn [attempts v0] in Ha'.
    destruct (fuel - (n - 1))%nat as [|f] eqn:Hf; [lia|].
    rewrite poll_loop_step by (assumption || lia). cbn zeta.
    cbn [sent events p0 emit].
    replace (1 + (n - 1))%nat with n by lia. rewrite Hans.
    f_equal. f_equal.
    rewrite <- !app_assoc. cbn [app firstn prelude].
    replace n with (S (n - 1)) at 3 by lia.
    rewrite checks_events_snoc.
    replace (1 + (n - 1))%nat with n by lia.
    now rewrite <- ?app_assoc.
Qed.

Lemma run_check_rejected w commandId n e :
  Submitted w commandId ->
  (1 <= n <= maxAttempts)%nat ->
  Polling w commandId (n - 1) ->
  answer w commandId n = inl e ->
  run w start =
  (Normal tt,
   {| events := prelude w commandId ++ checks_events w commandId 1 n ++
                [SetFailed (message e)];
      sent := S n |}).
Proof.
  intros Hsub Hn Hpoll Hans. unfold run, run_with, try_catch.
  rewrite (bind_normal _ _ _ _ _ _ (dispatch_submitted _ _ Hsub)).
  erewrite bind_thrown by (apply poll_rejected; [lia | eassumption..]).
  unfold core.setFailed, log, emit. cbn [events sent].
  now rewrite <- app_assoc.
Qed.

(** Either the first [k] checks are all pending, or there is a first one,
    the [n]-th, that is not. *)
Lemma first_stop w commandId k :
  Polling w commandId k \/
  exists n, (1 <= n <= k)%nat /\ Polling w commandId (n - 1) /\
            pending (answer w commandId n) = false.
Proof.
  induction k as [|k [IH|(n & Hn & Hp & Hs)]].
  - left. intros i Hi. lia.
  - destruct (pending (answer w commandId (S k))) eqn:Hk.
    + left. intros i Hi. destruct (decide (i = S k)) as [->|]; [assumption|].
      apply IH. lia.
    + right. exists (S k). split; [lia|]. split; [|assumption].
      now replace (S k - 1)%nat with k by lia.
  - right. exists n. split; [lia|]. now split.
Qed.

Lemma completes_at w commandId n r :
  Submitted w commandId ->
  (1 <= n <= maxAttempts)%nat ->
  Polling w commandId (n - 1) ->
  answer w commandId n = inr r ->
  pending (inr r) = false ->
  Completes w commandId n r.
Proof.
  intros Hs Hn Hp Ha Hstop.
  apply bool_decide_eq_false in Hstop. now split.
Qed.

(** [run] always returns normally (its [catch] clause absorbs every throw, and
    the loop budget of the model is never exhausted), with a trace of one of
    the seven shapes. *)
Lemma run_shape w : outcome w = Normal tt /\ Shape w (trace w).
Proof.
  unfold outcome, trace.
  destruct (first_missing w) as [name|] eqn:Hm.
  { rewrite (run_missing _ _ Hm). split; [reflexivity|]. now constructor. }
  destruct (decide (input w "region" = "")) as [Hreg|Hreg].
  { rewrite (run_no_region _ Hm Hreg). split; [reflexivity|]. now constructor. }
  destruct (service w 0 (SendCommandCommand (submission w))) as [e|r0] eqn:Hs.
  { rewrite (run_rejected _ _ Hm Hreg Hs). split; [reflexivity|].
    now constructor. }
  destruct (Command_ r0) as [c|] eqn:Hc.
  2:{ rewrite (run_no_command _ _ Hm Hreg Hs Hc). split; [reflexivity|].
      now apply shape_no_command with (r := r0). }
  assert (Hsub : Submitted w (Command_CommandId c)).
  { split; [now apply first_missing_None | assumption | now exists r0, c]. }
  destruct (first_stop w (Command_CommandId c) maxAttempts)
    as [Hp|(n & Hn & Hp & Hstop)].
  { rewrite (run_exhausts _ _ Hsub Hp). split; [reflexivity|].
    now constructor. }
  destruct (answer w (Command_CommandId c) n) as [e|r] eqn:Ha.
  - rewrite (run_check_rejected _ _ _ _ Hsub Hn Hp Ha).
    split; [reflexivity|]. now apply shape_check_rejected.
  - assert (Hcomp : Completes w (Command_CommandId c) n r).
    { split; try assumption. now apply bool_decide_eq_false in Hstop. }
    rewrite (run_completes _ _ _ _ Hcomp).
    split; [reflexivity|]. now constructor.
Qed.

(** The model's loop budget is immaterial above [maxAttempts]. *)
Lemma run_with_fuel w fuel p :
  (maxAttempts < fuel)%nat -> run_with fuel w p = run w p.
Proof.
  intros Hfuel. unfold run, run_with, try_catch, bind.
  destruct (first_missing w) as [name|] eqn:Hm.
  { now rewrite (dispatch_missing _ _ _ Hm). }
  rewrite dispatch_supplied by now apply first_missing_None.
  destruct (decide (input w "region" = "")); [reflexivity|].
  destruct (service w (sent p) _) as [e|r]; [reflexivity|].
  destruct (Command_ r) as [c|]; [|reflexivity].
  unfold poll, bind, core.info, log.
  destruct (poll_loop_fuel w (Command_CommandId c) maxAttempts fuel
              (S maxAttempts)
              {| status := Some "InProgress"; attempts := 0;
                 lastInvocationResponse := None |}
              (emit (Info "Waiting for command to complete...")
                 {| events := events p ++
                              firstn 6 (prelude w (Command_CommandId c));
                    sent := S (sent p) |}))
    as [-> _]; [cbn [attempts]; lia | lia | lia |].
  reflexivity.
Qed.

(** ** Observations on the parts of a trace *)

Lemma count_app f (t1 t2 : list Event) :
  count f (t1 ++ t2) = (count f t1 + count f t2)%nat.
Proof. unfold count. now rewrite List.filter_app, length_app. Qed.

Lemma failed_app (t1 t2 : list Event) :
  failed (t1 ++ t2) = failed t1 || failed t2.
Proof. apply existsb_app. Qed.

Lemma outputs_app (t1 t2 : list Event) :
  outputs (t1 ++ t2) = outputs t1 ++ outputs t2.
Proof. apply omap_app. Qed.

Lemma count_none f (t : list Event) :
  Forall (fun e => f e = false) t -> count f t = 0%nat.
Proof.
  unfold count. induction 1 as [|e t He _ IH]; [reflexivity|].
  cbn [List.filter]. now rewrite He.
Qed.

Lemma failed_none (t : list Event) :
  Forall (fun e => is_SetFailed e = false) t -> failed t = false.
Proof.
  unfold failed. induction 1 as [|e t He _ IH]; [reflexivity|].
  cbn [existsb]. now rewrite He.
Qed.

Lemma outputs_none (t : list Event) :
  Forall (fun e => is_SetOutput e = false) t -> outputs t = [].
Proof.
  unfold outputs. induction 1 as [|e t He _ IH]; [reflexivity|].
  destruct e; try discriminate; exact IH.
Qed.

Lemma failed_elem (t : list Event) msg : SetFailed msg ∈ t -> failed t = true.
Proof.
  intros H. apply existsb_exists. exists (SetFailed msg).
  split; [now apply list_elem_of_In | reflexivity].
Qed.

(** The status checks log, wait and poll, and nothing else. *)
Lemma checks_events_Forall (P : Event -> Prop) w commandId from k :
  P (Wait 5000) -> P (Send (status_check w commandId)) ->
  (forall msg, P (Info msg)) ->
  Forall P (checks_events w commandId from k).
Proof.
  intros Hw Hs Hi. revert from.
  induction k as [|k IH]; intros from; [constructor|].
  rewrite checks_events_S. apply Forall_app. split; [|apply IH].
  unfold check_events. repeat constructor; try assumption.
  destruct (answer w commandId from); repeat constructor. apply Hi.
Qed.

Lemma checks_events_count w commandId from k :
  count is_status_check (checks_events w commandId from k) = k.
Proof.
  revert from. induction k as [|k IH]; intros from; [reflexivity|].
  rewrite checks_events_S, count_app, IH. unfold check_events.
  now destruct (answer w commandId from).
Qed.

Lemma checks_events_failed w commandId from k :
  failed (checks_events w commandId from k) = false.
Proof. apply failed_none. now apply checks_events_Forall. Qed.

Lemma checks_events_outputs w commandId from k :
  outputs (checks_events w commandId from k) = [].
Proof. apply outputs_none. now apply checks_events_Forall. Qed.

Lemma checks_events_submissions w commandId from k :
  count is_submission (checks_events w commandId from k) = 0%nat.
Proof. apply count_none. now apply checks_events_Forall. Qed.

Lemma stream_events_Forall (P : Event -> Prop) r :
  (forall msg, P (Info msg)) -> (forall msg, P (Warning msg)) ->
  P (SetFailed "Stderr detected") ->
  Forall P (stream_events r).
Proof.
  intros Hi Hw Hf. unfold stream_events. apply Forall_app. split.
  - destruct (default "" (StandardOutputContent r)); repeat constructor.
    apply Hi.
  - destruct (default "" (StandardErrorContent r)); repeat constructor;
      [apply Hw | apply Hf].
Qed.

Lemma verdict_cases st code :
  (exists msg, verdict st code = SetFailed msg) \/
  (exists msg, verdict st code = Info msg).
Proof.
  unfold verdict. repeat case_decide; eauto.
Qed.

Lemma report_events_no_send f commandId r :
  (forall e, f e = true -> is_Send e = true) ->
  count f (report_events commandId r) = 0%nat.
Proof.
  intros Hf.
  assert (Hnot : forall e, is_Send e = false -> f e = false).
  { intros e He. destruct (f e) eqn:Hfe; [|reflexivity].
    apply Hf in Hfe. congruence. }
  apply count_none. unfold report_events. rewrite !Forall_app.
  split; [|split].
  - apply stream_events_Forall; intros; now apply Hnot.
  - unfold output_events. repeat constructor; now apply Hnot.
  - constructor; [|constructor]. apply Hnot.
    destruct (verdict_cases (Status r) (ResponseCode r)) as [[m ->]|[m ->]];
      reflexivity.
Qed.

Lemma report_events_outputs commandId r :
  outputs (report_events commandId r) =
  [ ("stdout", JsString (default "" (StandardOutputContent r)));
    ("stderr", JsString (default "" (StandardErrorContent r)));
    ("status", of_string (Status r));
    ("status-code", of_number (ResponseCode r));
    ("command-id", of_string commandId) ].
Proof.
  unfold report_events. rewrite !outputs_app.
  rewrite (outputs_none (stream_events r))
    by now apply stream_events_Forall.
  destruct (verdict_cases (Status r) (ResponseCode r)) as [[m ->]|[m ->]];
    reflexivity.
Qed.

Lemma prelude_quiet w commandId :
  failed (prelude w commandId) = false /\
  outputs (prelude w commandId) = [] /\
  count is_status_check (prelude w commandId) = 0%nat /\
  count is_submission (prelude w commandId) = 1%nat.
Proof. repeat split. Qed.

(** ** Statuses and the verdict *)

Lemma verdict_failed st code :
  is_SetFailed (verdict st code) = false <->
  ~ failure_state st /\ code = Some 0.
Proof.
  unfold failure_state, verdict.
  repeat case_decide; cbn [is_SetFailed]; split;
    try discriminate; try tauto.
Qed.

Lemma stream_events_failed r :
  failed (stream_events r) = truthy (default "" (StandardErrorContent r)).
Proof.
  unfold stream_events. rewrite failed_app.
  destruct (default "" (StandardOutputContent r));
    destruct (default "" (StandardErrorContent r)); reflexivity.
Qed.

Lemma report_events_failed commandId r :
  failed (report_events commandId r) =
  truthy (default "" (StandardErrorContent r)) ||
  is_SetFailed (verdict (Status r) (ResponseCode r)).
Proof.
  unfold report_events. rewrite !failed_app, stream_events_failed.
  unfold output_events, failed at 1 2. cbn [existsb is_SetFailed orb].
  now rewrite orb_false_r.
Qed.

(** The trace of a run whose loop ends at the [n]-th check. *)
Lemma trace_completes w commandId n r :
  Completes w commandId n r ->
  trace w = prelude w commandId ++ checks_events w commandId 1 n ++
            report_events commandId r.
Proof. intros H. unfold trace. now rewrite (run_completes _ _ _ _ H). Qed.

Lemma failed_completes w commandId n r :
  Completes w commandId n r ->
  failed (trace w) =
  truthy (default "" (StandardErrorContent r)) ||
  is_SetFailed (verdict (Status r) (ResponseCode r)).
Proof.
  intros H. rewrite (trace_completes _ _ _ _ H), !failed_app.
  rewrite checks_events_failed, report_events_failed.
  now destruct (prelude_quiet w commandId) as [-> _].
Qed.

Lemma outputs_completes w commandId n r :
  Completes w commandId n r ->
  outputs (trace w) = outputs (report_events commandId r).
Proof.
  intros H. rewrite (trace_completes _ _ _ _ H), !outputs_app.
  rewrite checks_events_outputs.
  now destruct (prelude_quiet w commandId) as (_ & -> & _).
Qed.

Lemma checks_completes w commandId n r :
  Completes w commandId n r ->
  count is_status_check (trace w) = n.
Proof.
  intros H. rewrite (trace_completes _ _ _ _ H), !count_app.
  rewrite checks_events_count, report_events_no_send.
  - destruct (prelude_quiet w commandId) as (_ & _ & -> & _). lia.
  - intros [] He; try discriminate. reflexivity.
Qed.

(** ** Soundness of the decision procedures *)

Lemma submittedb_true w commandId :
  submittedb w commandId = true -> Submitted w commandId.
Proof.
  unfold submittedb. intros [[Hin Hreg]%andb_true_iff Hs]%andb_true_iff.
  split.
  - rewrite forallb_forall in Hin. apply Forall_forall. intros name Hname.
    apply list_elem_of_In, Hin in Hname. now apply negb_true_iff in Hname.
  - now apply negb_true_iff, bool_decide_eq_false in Hreg.
  - destruct (service w 0 _) as [e|r]; [discriminate|].
    destruct (Command_ r) as [c|] eqn:Hc; [|discriminate].
    apply bool_decide_eq_true in Hs. now exists r, c.
Qed.

Lemma pollingb_true w commandId k :
  pollingb w commandId k = true -> Polling w commandId k.
Proof.
  unfold pollingb. rewrite forallb_forall. intros H i Hi.
  apply H, in_seq. lia.
Qed.

Lemma completes_intro w commandId n r :
  submittedb w commandId = true ->
  ((1 <=? n)%nat && (n <=? maxAttempts)%nat) = true ->
  pollingb w commandId (n - 1) = true ->
  answer w commandId n = inr r ->
  loop_condition (Status r) = false ->
  Completes w commandId n r.
Proof.
  intros Hs [H1 H2]%andb_true_iff Hp Ha Hl%loop_condition_stop.
  apply Nat.leb_le in H1, H2.
  split; auto using submittedb_true, pollingb_true.
Qed.

(** ** The example worlds at work *)

Example world_success_trace :
  trace world_success =
  prelude world_success (Some "cmd-1") ++
  [ Wait 5000; Send (status_check world_success (Some "cmd-1"));
    Info "Command status: InProgress";
    Wait 5000; Send (status_check world_success (Some "cmd-1"));
    Info "Command status: Success";
    Info "up 3 days";
    SetOutput "stdout" (JsString "up 3 days");
    SetOutput "stderr" (JsString "");
    SetOutput "status" (JsString "Success");
    SetOutput "status-code" (JsNumber 0);
    SetOutput "command-id" (JsString "cmd-1");
    Info "Command completed successfully with status: Success" ].
Proof. vm_compute. reflexivity. Qed.

Example world_success_completes :
  Completes world_success (Some "cmd-1") 2
    (invocation "Success" 0 (Some "up 3 days") None).
Proof. now apply completes_intro. Qed.

(** ** Failure signals of a completed run *)

Lemma default_empty (o : option string) :
  default "" o = "" <-> o = None \/ o = Some "".
Proof.
  destruct o as [s|]; cbn; [|tauto]. split.
  - intros ->. now right.
  - intros [|[= ->]]; [discriminate | reflexivity].
Qed.

Lemma default_nonempty (o : option string) :
  default "" o <> "" <-> exists s, o = Some s /\ s <> "".
Proof.
  destruct o as [s|]; cbn.
  - split; [intros H; now exists s | now intros (s' & [= <-] & H)].
  - split; [congruence | now intros (s' & [=] & _)].
Qed.

Lemma verdict_in_trace w commandId n r :
  Completes w commandId n r ->
  verdict (Status r) (ResponseCode r) ∈ trace w.
Proof.
  intros H. rewrite (trace_completes _ _ _ _ H). unfold report_events.
  rewrite !elem_of_app. do 4 right. apply list_elem_of_singleton. reflexivity.
Qed.

Lemma stderr_signal_in_trace w commandId n r :
  Completes w commandId n r ->
  default "" (StandardErrorContent r) <> "" ->
  SetFailed "Stderr detected" ∈ trace w.
Proof.
  intros H Herr. rewrite (trace_completes _ _ _ _ H).
  unfold report_events, stream_events. rewrite !elem_of_app.
  right. right. left. right.
  destruct (default "" (StandardErrorContent r)); [contradiction|].
  elem_of_explicit.
Qed.

(** Every failure signal of a completed run is the stderr signal or the
    verdict. *)
Lemma set_failed_in_trace w commandId n r msg :
  Completes w commandId n r ->
  SetFailed msg ∈ trace w ->
  (msg = "Stderr detected" /\ default "" (StandardErrorContent r) <> "") \/
  SetFailed msg = verdict (Status r) (ResponseCode r).
Proof.
  intros H. rewrite (trace_completes _ _ _ _ H). unfold report_events.
  rewrite !elem_of_app. intros [Hin|[Hin|[Hin|[Hin|Hin]]]].
  - exfalso. unfold prelude in Hin.
    repeat (apply elem_of_cons in Hin as [Hin|Hin]; [discriminate|]).
    now apply elem_of_nil in Hin.
  - exfalso.
    assert (HF : Forall (fun e => e <> SetFailed msg)
                   (checks_events w commandId 1 n))
      by (apply checks_events_Forall; discriminate).
    rewrite Forall_forall in HF. now apply (HF _ Hin).
  - left. unfold stream_events in Hin. apply elem_of_app in Hin as [Hin|Hin].
    + destruct (default "" (StandardOutputContent r));
        [now apply elem_of_nil in Hin|].
      apply list_elem_of_singleton in Hin. discriminate.
    + destruct (default "" (StandardErrorContent r)) eqn:Herr;
        [now apply elem_of_nil in Hin|].
      apply elem_of_cons in Hin as [Hin|Hin]; [discriminate|].
      apply list_elem_of_singleton in Hin. injection Hin as ->. now split.
  - exfalso. unfold output_events in Hin.
    repeat (apply elem_of_cons in Hin as [Hin|Hin]; [discriminate|]).
    now apply elem_of_nil in Hin.
  - right. now apply list_elem_of_singleton in Hin.
Qed.

Lemma verdict_not_stderr st code : verdict st code <> SetFailed "Stderr detected".
Proof. unfold verdict. repeat case_decide; discriminate. Qed.

Lemma succeeded_completes w commandId n r :
  Completes w commandId n r ->
  succeeded (trace w) = true <->
  ResponseCode r = Some 0 /\ ~ failure_state (Status r) /\
  default "" (StandardErrorContent r) = "".
Proof.
  intros H. unfold succeeded.
  rewrite negb_true_iff, (failed_completes _ _ _ _ H), orb_false_iff.
  rewrite truthy_false, verdict_failed. tauto.
Qed.

Lemma failure_messages_distinct code st :
  NoDup (timeout_message :: failure_messages code st).
Proof.
  unfold failure_messages, timeout_message.
  repeat (apply NoDup_cons; split;
          [ intros Hin;
            repeat (apply elem_of_cons in Hin as [Hin|Hin]; [discriminate|]);
            now apply elem_of_nil in Hin | ]).
  apply NoDup_nil. exact I.
Qed.

(** C1. After the poll loop has ended with final response [r], the run
    succeeds if and only if the exit code is 0, the final state is none of
    Failed, TimedOut and Cancelled, and the captured stderr is absent or
    empty. Every other combination fails the run, each cause with a message
    of its own: the Failed state with a message naming Failed whatever the
    exit code, the TimedOut and Cancelled states with theirs, a non-zero exit
    code in any other state (such as Success) with a message citing the code,
    and a non-empty stderr with 'Stderr detected'; the messages are pairwise
    distinct. *)
Theorem run_succeeds_iff w commandId n r :
  Completes w commandId n r ->
  (succeeded (trace w) = true <->
     ResponseCode r = Some 0 /\ ~ failure_state (Status r) /\
     (StandardErrorContent r = None \/ StandardErrorContent r = Some "")) /\
  (Status r = Some "Failed" ->
     SetFailed "Command execution failed with status: Failed" ∈ trace w) /\
  (Status r = Some "TimedOut" ->
     SetFailed "Command execution timed out" ∈ trace w) /\
  (Status r = Some "Cancelled" ->
     SetFailed "Command execution was cancelled" ∈ trace w) /\
  (forall code, ~ failure_state (Status r) ->
     ResponseCode r = Some code -> code <> 0 ->
     Z.abs code < 2 ^ 53 ->
     SetFailed ("Command exited with non-zero status code: " +:+ pretty code +:+
                ", status: " +:+ template (of_string (Status r))) ∈ trace w) /\
  (forall s, StandardErrorContent r = Some s -> s <> "" ->
     SetFailed "Stderr detected" ∈ trace w) /\
  NoDup (failure_messages (ResponseCode r) (Status r)).
Proof.
  intros H. pose proof (verdict_in_trace _ _ _ _ H) as Hv.
  split.
  { rewrite (succeeded_completes _ _ _ _ H), default_empty. reflexivity. }
  split; [intros Hst; now rewrite Hst in Hv|].
  split; [intros Hst; now rewrite Hst in Hv|].
  split; [intros Hst; now rewrite Hst in Hv|].
  split.
  { intros code Hst Hcode Hnz _. rewrite Hcode in Hv.
    unfold failure_state in Hst. unfold verdict in Hv.
    repeat case_decide; first [tauto | congruence | exact Hv]. }
  split.
  { intros s Hs Hne.
    apply stderr_signal_in_trace with (commandId := commandId) (n := n) (r := r);
      [assumption|]. apply default_nonempty. now exists s. }
  pose proof (failure_messages_distinct (ResponseCode r) (Status r)) as Hd.
  now apply NoDup_cons in Hd as [_ Hd].
Qed.

Lemma run_succeeds_iff_witness :
  Completes world_exit2 (Some "cmd-1") 1 (invocation "Success" 2 None None) /\
  succeeded (trace world_exit2) = false /\
  SetFailed "Command exited with non-zero status code: 2, status: Success"
    ∈ trace world_exit2 /\
  Completes world_stderr (Some "cmd-1") 1
    (invocation "Success" 0 (Some "ok") (Some "warning: disk")) /\
  succeeded (trace world_stderr) = false /\
  SetFailed "Stderr detected" ∈ trace world_stderr /\
  Completes world_success (Some "cmd-1") 2
    (invocation "Success" 0 (Some "up 3 days") None) /\
  succeeded (trace world_success) = true.
Proof.
  assert (Hc : Completes world_exit2 (Some "cmd-1") 1
                 (invocation "Success" 2 None None))
    by now apply completes_intro.
  assert (He : Completes world_stderr (Some "cmd-1") 1
                 (invocation "Success" 0 (Some "ok") (Some "warning: disk")))
    by now apply completes_intro.
  assert (Hs : Completes world_success (Some "cmd-1") 2
                 (invocation "Success" 0 (Some "up 3 days") None))
    by now apply completes_intro.
  pose proof (run_succeeds_iff _ _ _ _ Hc) as (Hiff & _ & _ & _ & Hcode & _).
  pose proof (run_succeeds_iff _ _ _ _ He) as (Hiff' & _ & _ & _ & _ & Herr & _).
  pose proof (run_succeeds_iff _ _ _ _ Hs) as (Hiff'' & _).
  split; [exact Hc|]. split; [|split; [|split; [exact He|split; [|split;
    [|split; [exact Hs|]]]]]].
  - destruct (succeeded (trace world_exit2)); [|reflexivity].
    destruct Hiff as [Hiff _]. destruct (Hiff eq_refl) as [Hzero _].
    discriminate Hzero.
  - apply (Hcode 2); [|reflexivity|discriminate|reflexivity].
    unfold failure_state. intros [Hf|[Hf|Hf]]; discriminate Hf.
  - destruct (succeeded (trace world_stderr)); [|reflexivity].
    destruct Hiff' as [Hiff' _]. destruct (Hiff' eq_refl) as (_ & _ & [Hn|Hn]);
      discriminate Hn.
  - apply (Herr "warning: disk"); [reflexivity | discriminate].
  - apply Hiff''. split; [reflexivity|]. split; [|now left].
    unfold failure_state. intros [Hf|[Hf|Hf]]; discriminate Hf.
Defined.

(** C5. A run whose loop ends in state Success with exit code 0 but with a
    non-empty captured stderr is marked failed: 'Stderr detected' is signalled,
    and it is the only failure signal of the run. *)
Theorem stderr_fails_successful_run w commandId n r s :
  Completes w commandId n r ->
  Status r = Some "Success" ->
  ResponseCode r = Some 0 ->
  StandardErrorContent r = Some s ->
  s <> "" ->
  failed (trace w) = true /\
  SetFailed "Stderr detected" ∈ trace w /\
  (forall msg, SetFailed msg ∈ trace w -> msg = "Stderr detected") /\
  ("status", JsString "Success") ∈ outputs (trace w) /\
  ("status-code", JsNumber 0) ∈ outputs (trace w) /\
  ("stderr", JsString s) ∈ outputs (trace w).
Proof.
  intros H Hst Hcode Herr Hs.
  assert (Hne : default "" (StandardErrorContent r) <> "")
    by now rewrite Herr.
  pose proof (stderr_signal_in_trace _ _ _ _ H Hne) as Hin.
  split; [now apply failed_elem with (msg := "Stderr detected")|].
  split; [assumption|]. split.
  - intros msg Hmsg.
    destruct (set_failed_in_trace _ _ _ _ _ H Hmsg) as [[-> _]|Hv];
      [reflexivity|].
    rewrite Hst, Hcode in Hv. discriminate Hv.
  - rewrite (outputs_completes _ _ _ _ H), report_events_outputs,
      Hst, Hcode, Herr.
    repeat split; elem_of_explicit.
Qed.

Lemma stderr_fails_successful_run_witness :
  Completes world_stderr (Some "cmd-1") 1
    (invocation "Success" 0 (Some "ok") (Some "warning: disk")) /\
  failed (trace world_stderr) = true.
Proof.
  assert (Hc : Completes world_stderr (Some "cmd-1") 1
                 (invocation "Success" 0 (Some "ok") (Some "warning: disk")))
    by now apply completes_intro.
  split; [exact Hc|].
  apply (stderr_fails_successful_run world_stderr (Some "cmd-1") 1
           (invocation "Success" 0 (Some "ok") (Some "warning: disk"))
           "warning: disk" Hc);
    [reflexivity | reflexivity | reflexivity | discriminate].
Defined.

(** C10. When the final response carries no StandardOutputContent, the stdout
    output is set to the empty string; when it carries no
    StandardErrorContent, the stderr output is set to the empty string, no
    'Stderr detected' failure is signalled, and the run fails only if the
    verdict on state and exit code does. *)
Theorem absent_streams_are_empty w commandId n r :
  Completes w commandId n r ->
  (StandardOutputContent r = None ->
     ("stdout", JsString "") ∈ outputs (trace w)) /\
  (StandardErrorContent r = None ->
     ("stderr", JsString "") ∈ outputs (trace w) /\
     (SetFailed "Stderr detected" ∉ trace w) /\
     failed (trace w) = is_SetFailed (verdict (Status r) (ResponseCode r))).
Proof.
  intros H. split.
  - intros Hout.
    rewrite (outputs_completes _ _ _ _ H), report_events_outputs, Hout.
    elem_of_explicit.
  - intros Herr. split; [|split].
    + rewrite (outputs_completes _ _ _ _ H), report_events_outputs, Herr.
      elem_of_explicit.
    + intros Hin.
      destruct (set_failed_in_trace _ _ _ _ _ H Hin) as [[_ Hne]|Hv].
      * rewrite Herr in Hne. now apply Hne.
      * symmetry in Hv. now apply verdict_not_stderr in Hv.
    + now rewrite (failed_completes _ _ _ _ H), Herr.
Qed.

Lemma absent_streams_are_empty_witness :
  Completes world_no_streams (Some "cmd-1") 1
    (invocation "Success" 0 None None) /\
  ("stdout", JsString "") ∈ outputs (trace world_no_streams) /\
  ("stderr", JsString "") ∈ outputs (trace world_no_streams) /\
  failed (trace world_no_streams) = false.
Proof.
  assert (Hc : Completes world_no_streams (Some "cmd-1") 1
                 (invocation "Success" 0 None None))
    by now apply completes_intro.
  split; [exact Hc|].
  destruct (absent_streams_are_empty world_no_streams (Some "cmd-1") 1
              (invocation "Success" 0 None None) Hc) as [Hout Herr].
  split; [exact (Hout eq_refl)|].
  destruct (Herr eq_refl) as (Hin & _ & Hf).
  split; [exact Hin | exact Hf].
Defined.

(** ** Where the loop stops *)

Lemma terminal_stops st : terminal st = true -> loop_condition st = false.
Proof.
  destruct st as [s|]; [|discriminate]. unfold terminal, terminal_states.
  intros Hs%bool_decide_eq_true.
  repeat (apply elem_of_cons in Hs as [->|Hs]; [reflexivity|]).
  now apply elem_of_nil in Hs.
Qed.

Lemma checks_then_failure w commandId k msg :
  count is_status_check
    (prelude w commandId ++ checks_events w commandId 1 k ++ [SetFailed msg])
  = k.
Proof.
  rewrite !count_app, checks_events_count.
  destruct (prelude_quiet w commandId) as (_ & _ & -> & _).
  change (count is_status_check [SetFailed msg]) with 0%nat. lia.
Qed.

(** While the answers are pending and the cap is not reached, one more check
    is made. *)
Lemma polling_continues w commandId k :
  Submitted w commandId ->
  Polling w commandId k ->
  (k < maxAttempts)%nat ->
  (k < count is_status_check (trace w))%nat.
Proof.
  intros Hsub Hpoll Hk.
  destruct (first_stop w commandId maxAttempts) as [Hp|(n & Hn & Hp & Hstop)].
  - unfold trace. rewrite (run_exhausts _ _ Hsub Hp). cbn [snd events].
    now rewrite checks_then_failure.
  - assert (k < n)%nat.
    { destruct (Nat.le_gt_cases n k) as [Hle|]; [|assumption].
      rewrite Hpoll in Hstop by lia. discriminate. }
    destruct (answer w commandId n) as [e|r] eqn:Ha.
    + unfold trace. rewrite (run_check_rejected _ _ _ _ Hsub Hn Hp Ha).
      cbn [snd events]. now rewrite checks_then_failure.
    + assert (Hcomp : Completes w commandId n r) by now apply completes_at.
      now rewrite (checks_completes _ _ _ _ Hcomp).
Qed.

(** C2, as the code has it. The poll loop continues exactly on the statuses
    InProgress and Pending and stops on every other status value: on each of
    Success, Failed, Cancelled and TimedOut, and equally on any value outside
    that list (Delayed, a missing status). A run whose first status other
    than InProgress and Pending arrives at the [n]-th check, within the cap,
    makes exactly [n] checks and reports that status; while the first [k]
    answers are InProgress or Pending, with [k] below the cap, more than [k]
    checks are made. *)
Theorem loop_stops_unless_pending w commandId n r :
  Completes w commandId n r ->
  (forall st, loop_condition st = true <->
              st = Some "InProgress" \/ st = Some "Pending") /\
  (forall st, terminal st = true -> loop_condition st = false) /\
  count is_status_check (trace w) = n /\
  ("status", of_string (Status r)) ∈ outputs (trace w) /\
  (forall k, Polling w commandId k -> (k < maxAttempts)%nat ->
             (k < count is_status_check (trace w))%nat).
Proof.
  intros H.
  split; [apply loop_condition_true|].
  split; [apply terminal_stops|].
  split; [now apply checks_completes with (commandId := commandId) (r := r)|].
  split.
  - rewrite (outputs_completes _ _ _ _ H), report_events_outputs. set_solver.
  - intros k Hk Hlt. apply polling_continues with (commandId := commandId);
      [apply H | assumption | assumption].
Qed.

Lemma loop_stops_unless_pending_witness :
  Completes world_success (Some "cmd-1") 2
    (invocation "Success" 0 (Some "up 3 days") None) /\
  count is_status_check (trace world_success) = 2%nat.
Proof.
  assert (Hc : Completes world_success (Some "cmd-1") 2
                 (invocation "Success" 0 (Some "up 3 days") None))
    by now apply completes_intro.
  split; [exact Hc|].
  apply (loop_stops_unless_pending world_success (Some "cmd-1") 2
           (invocation "Success" 0 (Some "up 3 days") None) Hc).
Defined.

(** C2 as stated fails: Delayed is not one of the four terminal states, yet
    the loop stops on it. In [world_delayed] the first check answers Delayed
    (a second one would answer Success): the run makes one check only and
    reports status Delayed. *)
Lemma delayed_stops_the_loop :
  terminal (Some "Delayed") = false /\
  loop_condition (Some "Delayed") = false /\
  count is_status_check (trace world_delayed) = 1%nat /\
  outputs (trace world_delayed) =
  [ ("stdout", JsString ""); ("stderr", JsString "");
    ("status", JsString "Delayed"); ("status-code", JsNumber (-1));
    ("command-id", JsString "cmd-1") ].
Proof. vm_compute. repeat split. Qed.

(** C3, as the code has it. If the status is InProgress or Pending at each of
    the first 120 checks, the run makes exactly those 120 checks and then
    fails with 'Command execution timeout - exceeded maximum wait time', its
    only failure signal and its last event; that message differs from the one
    for a remote-reported TimedOut state. The world is arbitrary, so this
    holds for every value of the timeout-seconds input. *)
Theorem poll_cap_exceeded w commandId :
  Submitted w commandId ->
  Polling w commandId maxAttempts ->
  maxAttempts = 120%nat /\
  trace w = prelude w commandId ++ checks_events w commandId 1 120 ++
            [SetFailed timeout_message] /\
  count is_status_check (trace w) = 120%nat /\
  failed (trace w) = true /\
  (forall msg, SetFailed msg ∈ trace w -> msg = timeout_message) /\
  timeout_message = "Command execution timeout - exceeded maximum wait time" /\
  timeout_message <> "Command execution timed out".
Proof.
  intros Hsub Hpoll.
  assert (Ht : trace w = prelude w commandId ++
                         checks_events w commandId 1 maxAttempts ++
                         [SetFailed timeout_message]).
  { unfold trace. now rewrite (run_exhausts _ _ Hsub Hpoll). }
  split; [reflexivity|]. split; [exact Ht|]. split; [|split; [|split]].
  - rewrite Ht. apply checks_then_failure.
  - apply failed_elem with (msg := timeout_message).
    rewrite Ht, !elem_of_app. right. right. now apply list_elem_of_singleton.
  - intros msg. rewrite Ht, !elem_of_app. intros [Hin|[Hin|Hin]].
    + exfalso. unfold prelude in Hin.
      repeat (apply elem_of_cons in Hin as [Hin|Hin]; [discriminate|]).
      now apply elem_of_nil in Hin.
    + exfalso.
      assert (HF : Forall (fun e => e <> SetFailed msg)
                     (checks_events w commandId 1 maxAttempts))
        by (apply checks_events_Forall; discriminate).
      rewrite Forall_forall in HF. now apply (HF _ Hin).
    + apply list_elem_of_singleton in Hin. now injection Hin.
  - split; [reflexivity | discriminate].
Qed.

Lemma poll_cap_exceeded_witness :
  Submitted world_stuck (Some "cmd-1") /\
  Polling world_stuck (Some "cmd-1") maxAttempts /\
  count is_status_check (trace world_stuck) = 120%nat.
Proof.
  assert (Hs : Submitted world_stuck (Some "cmd-1"))
    by now apply submittedb_true.
  assert (Hp : Polling world_stuck (Some "cmd-1") maxAttempts)
    by now apply pollingb_true.
  split; [exact Hs|]. split; [exact Hp|].
  apply (poll_cap_exceeded world_stuck (Some "cmd-1") Hs Hp).
Defined.

(** C3 as stated fails: in [world_late_delayed] each of the first 120 status
    checks is answered with a status that is not terminal (119 times
    InProgress, then Delayed). The run makes these 120 checks and no more, but
    signals no timeout: the loop has ended on Delayed, and (the reported exit
    code being 0) the run does not fail at all. *)
Lemma delayed_never_times_out :
  Forall (fun i => exists r, answer world_late_delayed (Some "cmd-1") i = inr r
                             /\ terminal (Status r) = false) (seq 1 120) /\
  count is_status_check (trace world_late_delayed) = 120%nat /\
  (SetFailed timeout_message ∉ trace world_late_delayed) /\
  failed (trace world_late_delayed) = false /\
  ("status", JsString "Delayed") ∈ outputs (trace world_late_delayed).
Proof.
  split.
  - apply Forall_forall. intros i Hi.
    apply list_elem_of_In, in_seq in Hi.
    destruct (decide (i = 120%nat)) as [->|Hne].
    + exists (invocation "Delayed" 0 None None). now split.
    + exists in_progress. split; [|reflexivity].
      unfold answer, world_late_delayed, scripted. cbn [service].
      destruct i as [|i]; [lia|]. f_equal.
      apply nth_lookup_Some with (d := invocation "Delayed" 0 None None).
      apply lookup_replicate_2. lia.
  - assert (Ht : failed (trace world_late_delayed) = false) by reflexivity.
    split; [reflexivity|]. split; [|split; [exact Ht|]].
    + intros Hin%(failed_elem _ timeout_message). congruence.
    + assert (Ho : outputs (trace world_late_delayed) =
                   [ ("stdout", JsString ""); ("stderr", JsString "");
                     ("status", JsString "Delayed");
                     ("status-code", JsNumber 0);
                     ("command-id", JsString "cmd-1") ]) by reflexivity.
      rewrite Ho. elem_of_explicit.
Qed.

(** ** Outputs *)

Lemma failure_tail w commandId k msg :
  let t := prelude w commandId ++ checks_events w commandId 1 k ++
           [SetFailed msg] in
  failed t = true /\ outputs t = [].
Proof.
  cbn zeta. rewrite !failed_app, !outputs_app, checks_events_outputs.
  destruct (prelude_quiet w commandId) as (_ & -> & _).
  split; [|reflexivity].
  change (failed [SetFailed msg]) with true. now rewrite !orb_true_r.
Qed.

(** What precedes the outputs of a completed run. *)
Lemma before_outputs w commandId n r :
  let pre := prelude w commandId ++ checks_events w commandId 1 n ++
             stream_events r in
  outputs pre = [] /\
  (forall msg, SetFailed msg ∈ pre -> msg = "Stderr detected").
Proof.
  cbn zeta. split.
  - rewrite !outputs_app, checks_events_outputs.
    rewrite (outputs_none (stream_events r))
      by now apply stream_events_Forall.
    now destruct (prelude_quiet w commandId) as (_ & -> & _).
  - intros msg. rewrite !elem_of_app. intros [Hin|[Hin|Hin]].
    + exfalso. unfold prelude in Hin.
      repeat (apply elem_of_cons in Hin as [Hin|Hin]; [discriminate|]).
      now apply elem_of_nil in Hin.
    + exfalso.
      assert (HF : Forall (fun e => e <> SetFailed msg)
                     (checks_events w commandId 1 n))
        by (apply checks_events_Forall; discriminate).
      rewrite Forall_forall in HF. now apply (HF _ Hin).
    + assert (HF : Forall (fun e => e = SetFailed msg -> msg = "Stderr detected")
                     (stream_events r)).
      { apply stream_events_Forall; try discriminate. now intros [= <-]. }
      rewrite Forall_forall in HF. now apply (HF _ Hin).
Qed.

(** C4, as the code has it. A run either reaches the end of its poll loop,
    and then sets all five outputs, in one block placed after the logging of
    the streams (where a non-empty stderr has already signalled 'Stderr
    detected') and before the verdict on state and exit code, whether that
    verdict is success or failure; or it ends in the catch clause (a missing
    input, a blank region, a rejected submission or status check, the
    120-attempt cap), and then it fails with no output set. *)
Theorem outputs_precede_verdict w :
  (exists commandId n r pre,
     Completes w commandId n r /\
     trace w = pre ++ output_events commandId r ++
               [verdict (Status r) (ResponseCode r)] /\
     outputs pre = [] /\
     (forall msg, SetFailed msg ∈ pre -> msg = "Stderr detected") /\
     fst <$> outputs (trace w) = output_names) \/
  (failed (trace w) = true /\ outputs (trace w) = [] /\
   ~ exists commandId n r, Completes w commandId n r).
Proof.
  destruct (run_shape w) as [_ Hshape].
  assert (Hno : failed (trace w) = true /\ outputs (trace w) = [] ->
                failed (trace w) = true /\ outputs (trace w) = [] /\
                ~ exists commandId n r, Completes w commandId n r).
  { intros [Hf Ho]. split; [assumption|]. split; [assumption|].
    intros (c & n & r & H).
    rewrite (outputs_completes _ _ _ _ H), report_events_outputs in Ho.
    discriminate Ho. }
  remember (trace w) as t eqn:Ht.
  destruct Hshape as [name| |e|r|commandId n e|commandId|commandId n r H].
  - right. apply Hno. now split.
  - right. apply Hno. now split.
  - right. apply Hno. rewrite failed_app, outputs_app. split; [|reflexivity].
    apply orb_true_r.
  - right. apply Hno. rewrite failed_app, outputs_app. split; [|reflexivity].
    apply orb_true_r.
  - right. apply Hno, failure_tail.
  - right. apply Hno, failure_tail.
  - left. exists commandId, n, r.
    exists (prelude w commandId ++ checks_events w commandId 1 n ++
            stream_events r).
    destruct (before_outputs w commandId n r) as [Hout Hsig].
    split; [assumption|]. split.
    { unfold report_events. now rewrite <- !app_assoc. }
    split; [assumption|]. split; [assumption|].
    rewrite Ht, (outputs_completes _ _ _ _ H), report_events_outputs.
    reflexivity.
Qed.

(** C4 as stated fails: a run whose submission is rejected, and a run that
    exceeds the 120-attempt cap, fail without setting any output. *)
Lemma failing_runs_without_outputs :
  failed (trace world_rejected) = true /\
  outputs (trace world_rejected) = [] /\
  failed (trace world_stuck) = true /\
  count is_status_check (trace world_stuck) = 120%nat /\
  outputs (trace world_stuck) = [].
Proof. vm_compute. repeat split. Qed.

(** ** Missing inputs and rejected submissions *)

(** C6. When one of the required inputs instance-id, region and command is
    missing (not supplied, or supplied empty), the whole run consists of one
    failure signal naming a missing required input: it fails at once, and no
    request, neither the submission nor a status check, is sent. *)
Theorem missing_input_fails_before_any_request w name :
  name ∈ required_inputs ->
  missing w name = true ->
  exists name',
    name' ∈ required_inputs /\ missing w name' = true /\
    trace w = [SetFailed ("Input required and not supplied: " +:+ name')] /\
    count is_Send (trace w) = 0%nat /\
    failed (trace w) = true.
Proof.
  intros Hin Hmiss.
  destruct (first_missing w) as [name'|] eqn:Hfirst.
  - destruct (first_missing_Some _ _ Hfirst) as [Hin' Hmiss'].
    exists name'. unfold trace. rewrite (run_missing _ _ Hfirst).
    repeat split; assumption.
  - apply first_missing_None in Hfirst. rewrite Forall_forall in Hfirst.
    rewrite (Hfirst _ Hin) in Hmiss. discriminate Hmiss.
Qed.

Lemma missing_input_fails_before_any_request_witness :
  missing world_no_region "region" = true /\
  count is_Send (trace world_no_region) = 0%nat /\
  failed (trace world_no_region) = true.
Proof.
  split; [reflexivity|].
  destruct (missing_input_fails_before_any_request world_no_region "region")
    as (name' & _ & _ & _ & Hsend & Hfailed).
  - unfold required_inputs. apply elem_of_cons. right. apply elem_of_cons.
    now left.
  - reflexivity.
  - split; assumption.
Defined.

Example world_no_region_trace :
  trace world_no_region =
  [SetFailed "Input required and not supplied: region"].
Proof. reflexivity. Qed.

(** C7. When the submission is made (the required inputs are supplied and the
    region is not blank, so that the client is created) and the service
    rejects it with error [e], the failure signal carrying [e]'s message
    follows the submission request directly and ends the run: one submission
    was sent (it is not retried), and no status check is made. *)
Theorem rejected_submission_fails_at_once w e :
  Forall (fun name => missing w name = false) required_inputs ->
  input w "region" <> "" ->
  service w 0 (SendCommandCommand (submission w)) = inl e ->
  trace w = submit_events w ++ [SetFailed (message e)] /\
  last (submit_events w) = Some (Send (SendCommandCommand (submission w))) /\
  failed (trace w) = true /\
  (forall msg, SetFailed msg ∈ trace w -> msg = message e) /\
  count is_submission (trace w) = 1%nat /\
  count is_status_check (trace w) = 0%nat /\
  outcome w = Normal tt.
Proof.
  intros Hin Hreg He.
  pose proof (first_missing_supplied _ Hin) as Hfirst.
  unfold trace, outcome. rewrite (run_rejected _ _ Hfirst Hreg He).
  cbn [fst snd events].
  split; [reflexivity|]. split; [reflexivity|].
  split; [rewrite failed_app; apply orb_true_r|].
  split; [|repeat split].
  intros msg. rewrite elem_of_app. intros [Hm|Hm].
  - exfalso. unfold submit_events, prelude in Hm. cbn [firstn] in Hm.
    repeat (apply elem_of_cons in Hm as [Hm|Hm]; [discriminate|]).
    now apply elem_of_nil in Hm.
  - apply list_elem_of_singleton in Hm. now injection Hm.
Qed.

Lemma rejected_submission_fails_at_once_witness :
  service world_rejected 0 (SendCommandCommand (submission world_rejected)) =
    inl {| message := "AccessDeniedException" |} /\
  last (trace world_rejected) = Some (SetFailed "AccessDeniedException") /\
  count is_Send (trace world_rejected) = 1%nat.
Proof.
  split; [reflexivity|].
  destruct (rejected_submission_fails_at_once world_rejected
              {| message := "AccessDeniedException" |})
    as (Ht & _).
  - unfold required_inputs. repeat constructor.
  - discriminate.
  - reflexivity.
  - rewrite Ht. split; reflexivity.
Defined.

(** ** The submission request *)

Lemma report_events_Forall (P : Event -> Prop) commandId r :
  (forall msg, P (Info msg)) -> (forall msg, P (Warning msg)) ->
  (forall msg, P (SetFailed msg)) -> (forall name v, P (SetOutput name v)) ->
  Forall P (report_events commandId r).
Proof.
  intros Hi Hw Hf Ho. unfold report_events. rewrite !Forall_app.
  split; [|split].
  - now apply stream_events_Forall.
  - unfold output_events. repeat constructor; apply Ho.
  - constructor; [|constructor].
    destruct (verdict_cases (Status r) (ResponseCode r)) as [[m ->]|[m ->]];
      [apply Hf | apply Hi].
Qed.

Lemma prelude_only_submission w commandId :
  Forall (only_submission w) (prelude w commandId).
Proof.
  unfold prelude.
  repeat constructor; intros req [= <-] || intros req [=]; reflexivity.
Qed.

Lemma trace_only_submission w : Forall (only_submission w) (trace w).
Proof.
  assert (Hchecks : forall c k, Forall (only_submission w) (checks_events w c 1 k)).
  { intros c k. apply checks_events_Forall; intros; intros req [=]. }
  assert (Hfail : forall msg, Forall (only_submission w) [SetFailed msg]).
  { intros msg. repeat constructor. intros req [=]. }
  assert (Hsubmit : Forall (only_submission w) (submit_events w)).
  { unfold submit_events, prelude. cbn [firstn].
    repeat constructor; intros req [= <-] || intros req [=]; reflexivity. }
  assert (Hannounce : Forall (only_submission w) (announce_events w)).
  { unfold announce_events, prelude. cbn [firstn].
    repeat constructor; intros req [=]. }
  destruct (run_shape w) as [_ Hshape].
  destruct Hshape; rewrite ?Forall_app;
    repeat split; auto using prelude_only_submission.
  apply report_events_Forall; intros; intros req [=].
Qed.

Lemma submission_in_trace w req :
  Send (SendCommandCommand req) ∈ trace w -> req = submission w.
Proof.
  intros Hin. pose proof (trace_only_submission w) as H.
  rewrite Forall_forall in H. now apply (H _ Hin).
Qed.

(** With the required inputs supplied and a region that is not blank, the
    submission is sent. *)
Lemma submission_sent w :
  Forall (fun name => missing w name = false) required_inputs ->
  input w "region" <> "" ->
  Send (SendCommandCommand (submission w)) ∈ trace w.
Proof.
  intros Hin%first_missing_supplied Hreg.
  assert (Hpre : forall c, Send (SendCommandCommand (submission w))
                           ∈ prelude w c)
    by (intros c; unfold prelude; elem_of_explicit).
  assert (Hsub : Send (SendCommandCommand (submission w)) ∈ submit_events w)
    by (unfold submit_events, prelude; cbn [firstn]; elem_of_explicit).
  destruct (run_shape w) as [_ Hshape].
  destruct Hshape; rewrite ?elem_of_app; auto; congruence.
Qed.

(** No run makes more than [maxAttempts] status checks. *)
Lemma status_checks_bounded w :
  (count is_status_check (trace w) <= maxAttempts)%nat.
Proof.
  destruct (run_shape w) as [_ Hshape].
  destruct Hshape as [name| |e|r|commandId n e|commandId|commandId n r H].
  - cbn. lia.
  - cbn. lia.
  - rewrite count_app. cbn. lia.
  - rewrite count_app. cbn. lia.
  - rewrite checks_then_failure. lia.
  - rewrite checks_then_failure. lia.
  - rewrite <- (trace_completes _ _ _ _ H), (checks_completes _ _ _ _ H).
    apply H.
Qed.

(** ** The timeout input and the number of status checks *)

Section WithTimeout.

Variable w : World.
Variable t : option string.

Lemma with_timeout_lookup name :
name <> "timeout-seconds" ->
inputs (with_timeout t w) !! name = inputs w !! name.
Proof.
intros Hne. unfold with_timeout. cbn [inputs].
destruct t; [now apply lookup_insert_ne | now apply lookup_delete_ne].
Qed.

Lemma with_timeout_input name :
name <> "timeout-seconds" -> input (with_timeout t w) name = input w name.
Proof. intros Hne. unfold input. now rewrite with_timeout_lookup. Qed.

Lemma with_timeout_missing name :
name <> "timeout-seconds" -> missing (with_timeout t w) name = missing w name.
Proof. intros Hne. unfold missing. now rewrite with_timeout_lookup. Qed.

Lemma with_timeout_first_missing :
first_missing (with_timeout t w) = first_missing w.
Proof.
unfold first_missing, required_inputs. cbn [List.find].
now rewrite !with_timeout_missing by discriminate.
Qed.

Lemma with_timeout_answer commandId i :
answer (with_timeout t w) commandId i = answer w commandId i.
Proof.
unfold answer, status_check. now rewrite with_timeout_input by discriminate.
Qed.

Lemma with_timeout_polling commandId k :
Polling w commandId k -> Polling (with_timeout t w) commandId k.
Proof. intros H i Hi. rewrite with_timeout_answer. now apply H. Qed.

Hypothesis blind : timeout_blind w.

Lemma with_timeout_submission :
service (with_timeout t w) 0
  (SendCommandCommand (submission (with_timeout t w))) =
service w 0 (SendCommandCommand (submission w)).
Proof.
unfold with_timeout at 1. cbn [service]. apply blind; unfold submission;
  cbn [InstanceIds DocumentName Parameters commandParams];
  now rewrite ?with_timeout_input by discriminate.
Qed.

Lemma with_timeout_submitted commandId :
Submitted w commandId -> Submitted (with_timeout t w) commandId.
Proof.
intros [Hin Hreg Hans]. split.
- apply first_missing_None. rewrite with_timeout_first_missing.
  now apply first_missing_supplied.
- now rewrite with_timeout_input by discriminate.
- now rewrite with_timeout_submission.
Qed.

(** Changing the timeout input does not change the number of status checks. *)
Lemma with_timeout_checks :
count is_status_check (trace (with_timeout t w)) =
count is_status_check (trace w).
Proof.
pose proof with_timeout_first_missing as Hfirst.
pose proof with_timeout_submission as Hsub.
destruct (run_shape w) as [_ Hshape].
assert (Hregion : input (with_timeout t w) "region" = input w "region")
  by now apply with_timeout_input.
destruct Hshape as [name Hm|Hm Hreg|e Hm Hreg Hs|r Hm Hreg Hs Hc
                    |commandId n e Hs Hn Hp Ha
                    |commandId Hs Hp|commandId n r H].
- rewrite <- Hfirst in Hm. unfold trace. now rewrite (run_missing _ _ Hm).
- rewrite <- Hfirst in Hm. rewrite <- Hregion in Hreg.
  unfold trace. now rewrite (run_no_region _ Hm Hreg).
- rewrite <- Hfirst in Hm. rewrite <- Hsub in Hs. rewrite <- Hregion in Hreg.
  unfold trace. now rewrite (run_rejected _ _ Hm Hreg Hs).
- rewrite <- Hfirst in Hm. rewrite <- Hsub in Hs. rewrite <- Hregion in Hreg.
  unfold trace. now rewrite (run_no_command _ _ Hm Hreg Hs Hc).
- unfold trace.
  rewrite (run_check_rejected (with_timeout t w) commandId n e);
    [ | now apply with_timeout_submitted | assumption
      | now apply with_timeout_polling | now rewrite with_timeout_answer ].
  cbn [snd events]. now rewrite !checks_then_failure.
- unfold trace.
  rewrite (run_exhausts (with_timeout t w) commandId);
    [ | now apply with_timeout_submitted | now apply with_timeout_polling ].
  cbn [snd events]. now rewrite !checks_then_failure.
- rewrite <- (trace_completes _ _ _ _ H), (checks_completes _ _ _ _ H).
  apply checks_completes with (commandId := commandId) (r := r).
  destruct H as [Hs Hn Hp Ha Hstop]. split; try assumption.
  + now apply with_timeout_submitted.
  + now apply with_timeout_polling.
  + now rewrite with_timeout_answer.
Qed.

End WithTimeout.

(** ** [trim] and [parseInt] on decimal numerals *)

Lemma white_space2_codes a b :
  is_white_space2 a b = true -> (128 <= code a /\ 128 <= code b)%N.
Proof.
  unfold is_white_space2. rewrite andb_true_iff, !N.eqb_eq. lia.
Qed.

Lemma white_space3_codes a b c :
  is_white_space3 a b c = true -> (128 <= code a /\ 128 <= code c)%N.
Proof.
  unfold is_white_space3.
  rewrite !orb_true_iff, !andb_true_iff, !orb_true_iff, !andb_true_iff,
    !N.eqb_eq, !N.leb_le.
  lia.
Qed.

(** A string that starts with a printable ASCII character has no white space
    at its head, in either direction. *)
Lemma strip_ascii backwards a l :
  (32 < code a < 128)%N -> strip backwards (a :: l) = a :: l.
Proof.
  intros Ha. cbn [strip].
  assert (H1 : is_white_space1 a = false).
  { unfold is_white_space1.
    destruct (N.leb_spec (code a) 13); [lia|].
    destruct (N.eqb_spec (code a) 32); [lia|].
    now rewrite andb_false_r. }
  rewrite H1. destruct l as [|b l]; [reflexivity|].
  assert (H2 : (if backwards then is_white_space2 b a else is_white_space2 a b)
               = false).
  { destruct backwards;
      (destruct (is_white_space2 _ _) eqn:E; [|reflexivity]);
      apply white_space2_codes in E; lia. }
  rewrite H2. destruct l as [|c l]; [reflexivity|].
  assert (H3 : (if backwards then is_white_space3 c b a
                else is_white_space3 a b c) = false).
  { destruct backwards;
      (destruct (is_white_space3 _ _ _) eqn:E; [|reflexivity]);
      apply white_space3_codes in E; lia. }
  now rewrite H3.
Qed.

Lemma pretty_N_char_code (d : N) :
  (d < 10)%N -> code (pretty_N_char d) = (48 + d)%N.
Proof.
  intros H.
  assert (Hd : (d = 0 \/ d = 1 \/ d = 2 \/ d = 3 \/ d = 4 \/ d = 5 \/ d = 6 \/
                d = 7 \/ d = 8 \/ d = 9)%N) by lia.
  repeat destruct Hd as [->|Hd]; try subst d; reflexivity.
Qed.

Lemma digit_value_code c :
  (48 <= code c <= 57)%N -> digit_value 10 c = Some (Z.of_N (code c) - 48).
Proof.
  intros H. unfold digit_value.
  destruct (Z.leb_spec 48 (Z.of_N (code c))); [|lia].
  destruct (Z.leb_spec (Z.of_N (code c)) 57); [|lia].
  reflexivity.
Qed.

(** The digits [pretty_N_go x s] puts before [s]: decimal digits, the first
    of them not zero, which read back as [x]. *)
Lemma pretty_N_go_digits (x : N) :
  (0 < x)%N ->
  forall s, exists l q,
    list_ascii_of_string (pretty_N_go x s) = l ++ list_ascii_of_string s /\
    Forall (fun c => (48 <= code c <= 57)%N) l /\
    (exists c rest, l = c :: rest /\ (49 <= code c)%N) /\
    forall acc tail,
      parse_digits 10 (Some acc) (l ++ tail) =
      parse_digits 10 (Some (acc * q + Z.of_N x)) tail.
Proof.
  induction x as [x IH] using (well_founded_induction N.lt_wf_0).
  intros Hx s. rewrite pretty_N_go_step by assumption.
  assert (Hmod : (x `mod` 10 < 10)%N) by (apply N.mod_lt; discriminate).
  assert (Hdm : (x = 10 * x `div` 10 + x `mod` 10)%N)
    by (apply N.div_mod; discriminate).
  revert Hmod Hdm. generalize (x `mod` 10)%N (x `div` 10)%N.
  intros m dv Hmod Hdm.
  pose proof (pretty_N_char_code _ Hmod) as Hcode.
  assert (Hdigit : (48 <= code (pretty_N_char m) <= 57)%N)
    by (rewrite Hcode; lia).
  assert (Hvalue : digit_value 10 (pretty_N_char m) = Some (Z.of_N m)).
  { rewrite digit_value_code by assumption. rewrite Hcode. f_equal. lia. }
  destruct (decide (dv = 0)%N) as [->|Hnz].
  - rewrite pretty_N_go_0. exists [pretty_N_char m], 10.
    split; [reflexivity|].
    split; [constructor; [assumption | constructor]|].
    split; [exists (pretty_N_char m), [];
            split; [reflexivity | rewrite Hcode; lia]|].
    intros acc tail. cbn [app parse_digits]. rewrite Hvalue.
    cbn [default]. do 2 f_equal. unfold id. lia.
  - destruct (IH dv) with (s := String (pretty_N_char m) s)
      as (l & q & Hchars & Hdigits & (c & rest & Hl & Hc) & Hparse);
      [lia | lia |].
    exists (l ++ [pretty_N_char m]), (q * 10).
    split; [rewrite Hchars; cbn [list_ascii_of_string];
            now rewrite <- app_assoc|].
    split; [apply Forall_app; split; [assumption|];
            constructor; [assumption | constructor]|].
    split; [exists c, (rest ++ [pretty_N_char m]);
            split; [now rewrite Hl | assumption]|].
    intros acc tail. rewrite <- app_assoc. cbn [app].
    rewrite Hparse. cbn [parse_digits]. rewrite Hvalue.
    cbn [default]. do 2 f_equal. unfold id. lia.
Qed.

(** The bytes of the decimal numeral of [k]. *)
Lemma pretty_digits (k : N) :
  exists c rest,
    list_ascii_of_string (pretty k) = c :: rest /\
    Forall (fun c => (48 <= code c <= 57)%N) (c :: rest) /\
    ((k = 0)%N \/ (49 <= code c)%N) /\
    forall acc,
      parse_digits 10 (Some acc) (c :: rest) <> None /\
      (acc = 0 -> parse_digits 10 (Some acc) (c :: rest) = Some (Z.of_N k)).
Proof.
  unfold pretty, pretty_N. destruct (decide (k = 0)%N) as [->|Hk].
  - exists "0"%char, []. split; [reflexivity|].
    split; [constructor; [cbn; lia | constructor]|]. split; [now left|].
    intros acc. split; [discriminate|]. now intros ->.
  - assert (Hpos : (0 < k)%N) by lia.
    destruct (pretty_N_go_digits k Hpos "")
      as (l & q & Hchars & Hdigits & (c & rest & Hl & Hc) & Hparse).
    cbn [list_ascii_of_string] in Hchars. rewrite app_nil_r in Hchars.
    rewrite Hl in Hchars, Hdigits, Hparse. clear l Hl.
    exists c, rest. split; [assumption|]. split; [assumption|].
    split; [now right|]. intros acc.
    specialize (Hparse acc []). rewrite app_nil_r in Hparse.
    rewrite Hparse. cbn [parse_digits]. split; [discriminate|].
    intros ->. f_equal; lia.
Qed.

(** A string that starts with a decimal digit is read in radix 10, or in
    radix 16 after a [0x] prefix; the decimal numerals are read in radix
    10. *)
Lemma parseInt_numeral s c rest :
  list_ascii_of_string s = c :: rest ->
  (49 <= code c <= 57)%N ->
  parseInt s = number_of false (parse_digits 10 (Some 0) (c :: rest)).
Proof.
  intros Hs Hc. unfold parseInt, trim_start.
  rewrite Hs, strip_ascii by lia.
  destruct c as [[] [] [] [] [] [] [] []]; cbn in Hc; try lia; reflexivity.
Qed.

(** [parseInt] reads the decimal numeral of a natural number back, rounded to
    a double. *)
Lemma parseInt_pretty (k : N) :
  parseInt (pretty k) = number_of false (Some (Z.of_N k)).
Proof.
  destruct (pretty_digits k) as (c & rest & Hchars & Hdigits & [->|Hc] & Hparse).
  - reflexivity.
  - apply Forall_cons in Hdigits as [Hc' _].
    rewrite (parseInt_numeral _ _ _ Hchars) by lia.
    now destruct (Hparse 0) as [_ ->].
Qed.

(** Below 2^53 no rounding takes place. *)
Lemma parseInt_pretty_exact (k : N) :
  (k < 2 ^ 53)%N -> parseInt (pretty k) = Finite (Z.of_N k).
Proof.
  intros Hk. rewrite parseInt_pretty. unfold number_of, round_to_double.
  rewrite andb_false_r.
  destruct (Z.ltb_spec (Z.of_N k) (2 ^ 53)); [reflexivity|].
  change (2 ^ 53)%N with 9007199254740992%N in Hk.
  change (2 ^ 53) with 9007199254740992 in *. lia.
Qed.

Lemma string_of_list_ascii_inv s :
  string_of_list_ascii (list_ascii_of_string s) = s.
Proof. induction s as [|c s IH]; [reflexivity|]. cbn. now rewrite IH. Qed.

(** A decimal numeral has no white space to trim. *)
Lemma trim_pretty (k : N) : trim (pretty k) = pretty k.
Proof.
  destruct (pretty_digits k) as (c & rest & Hchars & Hdigits & _).
  unfold trim, trim_start. rewrite Hchars.
  apply Forall_cons in Hdigits as Hc. destruct Hc as [Hc _].
  rewrite strip_ascii by lia.
  assert (Hrev : Forall (fun c => (48 <= code c <= 57)%N) (rev (c :: rest)))
    by now apply Forall_rev.
  destruct (rev (c :: rest)) as [|c' rest'] eqn:Erev.
  { apply (f_equal (@length ascii)) in Erev.
    rewrite length_rev in Erev. discriminate Erev. }
  apply Forall_cons in Hrev as [Hc' _].
  rewrite strip_ascii by lia.
  rewrite <- Erev, rev_involutive, <- Hchars.
  apply string_of_list_ascii_inv.
Qed.

Example parseInt_rounds :
  parseInt "9007199254740993" = Finite 9007199254740992 /\
  parseInt "9007199254740995" = Finite 9007199254740996 /\
  parseInt " 42px" = Finite 42 /\
  parseInt "0x1F" = Finite 31 /\
  parseInt "-0" = NegativeZero /\
  parseInt "soon" = NaN.
Proof. vm_compute. repeat split. Qed.

Lemma missing_input_empty w name : missing w name = true -> input w name = "".
Proof.
  unfold missing, input. intros H%negb_true_iff%truthy_false. now rewrite H.
Qed.

Lemma pretty_N_truthy (k : N) : truthy (pretty k) = true.
Proof.
  destruct (pretty_digits k) as (c & rest & Hchars & _).
  now destruct (pretty k).
Qed.

Example trim_unicode :
  trim (nbsp +:+ " eu-west-1" +:+ bom) = "eu-west-1" /\
  trim (nbsp +:+ bom) = "" /\
  parseInt (nbsp +:+ "42") = Finite 42.
Proof. vm_compute. repeat split. Qed.

(** C8. The TimeoutSeconds of the submission request is 3600 when the
    timeout-seconds input is absent or empty (or blank once trimmed);
    otherwise it is [parseInt] of the trimmed input, which for the decimal
    numeral of a natural number below 2^53 is that number. The input plays
    no part in polling: no run makes more than 120 status checks, and changing
    the input (for a service whose answer to the submission does not depend
    on the submitted TimeoutSeconds) leaves the number of status checks
    unchanged. *)
Theorem timeout_seconds_is_remote_timeout w req :
  Send (SendCommandCommand req) ∈ trace w ->
  (inputs w !! "timeout-seconds" = None \/
   inputs w !! "timeout-seconds" = Some "" ->
     TimeoutSeconds req = Finite 3600) /\
  (forall s, inputs w !! "timeout-seconds" = Some s ->
     (trim s = "" -> TimeoutSeconds req = Finite 3600) /\
     (trim s <> "" -> TimeoutSeconds req = parseInt (trim s))) /\
  (forall k : N, (k < 2 ^ 53)%N ->
     inputs w !! "timeout-seconds" = Some (pretty k) ->
     TimeoutSeconds req = Finite (Z.of_N k)) /\
  (count is_status_check (trace w) <= 120)%nat /\
  (forall t, timeout_blind w ->
     count is_status_check (trace (with_timeout t w)) =
     count is_status_check (trace w)).
Proof.
  intros Hin. apply submission_in_trace in Hin as ->.
  change (TimeoutSeconds (submission w)) with (parseInt (timeout_of w)).
  unfold timeout_of, input.
  split; [|split; [|split; [|split]]].
  - intros [-> | ->]; reflexivity.
  - intros s ->. cbn [default from_option id]. split.
    + intros ->. reflexivity.
    + intros Hne%truthy_true. now rewrite Hne.
  - intros k Hk ->. cbn [default from_option id].
    rewrite trim_pretty, pretty_N_truthy. now apply parseInt_pretty_exact.
  - apply status_checks_bounded.
  - intros t Hblind. now apply with_timeout_checks.
Qed.

Lemma timeout_seconds_is_remote_timeout_witness :
  Send (SendCommandCommand (submission world_workdir)) ∈ trace world_workdir /\
  TimeoutSeconds (submission world_workdir) = Finite 90 /\
  count is_status_check (trace (with_timeout (Some "5") world_workdir)) =
  count is_status_check (trace world_workdir).
Proof.
  assert (Hin : Send (SendCommandCommand (submission world_workdir))
                ∈ trace world_workdir)
    by (apply submission_sent; [repeat constructor | discriminate]).
  split; [exact Hin|].
  destruct (timeout_seconds_is_remote_timeout world_workdir
              (submission world_workdir) Hin) as (_ & _ & Hk & _ & Hblind).
  split; [apply (Hk 90%N); [reflexivity | reflexivity]|].
  apply Hblind. intros n a b _ _ _. reflexivity.
Defined.

Example default_timeout :
  TimeoutSeconds (submission world_success) = Finite 3600.
Proof. reflexivity. Qed.

(** No-break spaces around an input are trimmed like any white space. *)
Example nbsp_padded_inputs :
  InstanceIds (submission world_nbsp) = ["i-0123456789abcdef0"] /\
  Parameters (submission world_nbsp) = {[ "commands" := ["uptime"] ]} /\
  TimeoutSeconds (submission world_nbsp) = Finite 90 /\
  count is_status_check (trace world_nbsp) = 1%nat.
Proof. vm_compute. repeat split. Qed.

(** Beyond 2^53 the numeral is rounded to the nearest double. *)
Example long_timeout :
  TimeoutSeconds (submission world_long_timeout) = Finite 9007199254740992.
Proof. vm_compute. reflexivity. Qed.

(** C9, as the specification words it, does not hold: a working-directory
    input of two spaces is a non-empty string, yet the submission carries no
    workingDirectory entry; and for an input with a space on either side the
    entry does not hold the input value, but the value without them. *)
Lemma blank_working_directory_is_dropped :
  (inputs world_blank_workdir !! "working-directory" = Some "  " /\
   Send (SendCommandCommand (submission world_blank_workdir))
     ∈ trace world_blank_workdir /\
   Parameters (submission world_blank_workdir) = {[ "commands" := ["uptime"] ]}) /\
  (inputs world_padded_workdir !! "working-directory" = Some " /srv/app " /\
   Send (SendCommandCommand (submission world_padded_workdir))
     ∈ trace world_padded_workdir /\
   Parameters (submission world_padded_workdir) !! "workingDirectory" =
     Some ["/srv/app"]).
Proof.
  split; (split; [reflexivity|]);
    (split; [apply submission_sent; [repeat constructor | discriminate]
            | reflexivity]).
Qed.

(** C9, amended. With [wd] the working-directory input without the white
    space around it, the Parameters of the submission request have a
    workingDirectory entry if and only if [wd] is a non-empty string, and the
    entry is the one-element list [[wd]]; the map holds the commands entry
    besides, and nothing else. When the input is absent, empty or white space
    only, the map consists of the commands entry alone. *)
Theorem working_directory_parameter w req :
  Send (SendCommandCommand req) ∈ trace w ->
  let wd := trim (default "" (inputs w !! "working-directory")) in
  let command := trim (default "" (inputs w !! "command")) in
  (Parameters req !! "workingDirectory" = Some [wd] <-> wd <> "") /\
  (is_Some (Parameters req !! "workingDirectory") <-> wd <> "") /\
  Parameters req !! "commands" = Some [command] /\
  (wd <> "" ->
     Parameters req =
     <[ "workingDirectory" := [wd] ]> {[ "commands" := [command] ]}) /\
  (wd = "" -> Parameters req = {[ "commands" := [command] ]}) /\
  (inputs w !! "working-directory" = None \/
   inputs w !! "working-directory" = Some "" ->
     Parameters req = {[ "commands" := [command] ]}).
Proof.
  intros Hin wd command. apply submission_in_trace in Hin as ->.
  unfold submission, commandParams, input. cbn [Parameters].
  fold wd. fold command.
  assert (Hwd0 : inputs w !! "working-directory" = None \/
                 inputs w !! "working-directory" = Some "" -> wd = "")
    by (unfold wd; intros [-> | ->]; reflexivity).
  destruct (truthy wd) eqn:Hwd.
  - apply truthy_true in Hwd.
    rewrite lookup_insert_eq, lookup_insert_ne, lookup_singleton_eq
      by discriminate.
    repeat split; eauto; try congruence.
    intros H%Hwd0. contradiction.
  - apply truthy_false in Hwd.
    rewrite lookup_singleton_ne, lookup_singleton_eq by discriminate.
    repeat split; try congruence; try (intros [? [=]]).
Qed.

Lemma working_directory_parameter_witness :
  Send (SendCommandCommand (submission world_workdir)) ∈ trace world_workdir /\
  Parameters (submission world_workdir) !! "workingDirectory" =
    Some ["/srv/app"].
Proof.
  assert (Hin : Send (SendCommandCommand (submission world_workdir))
                ∈ trace world_workdir)
    by (apply submission_sent; [repeat constructor | discriminate]).
  split; [exact Hin|].
  destruct (working_directory_parameter world_workdir
              (submission world_workdir) Hin) as [Hwd _].
  apply Hwd. discriminate.
Defined.

Example no_working_directory :
  Parameters (submission world_success) = {[ "commands" := ["uptime"] ]}.
Proof. reflexivity. Qed.

(** * Further properties of [run] *)

(** ** Failure signals *)

Lemma filter_none (f : Event -> bool) (t : list Event) :
  Forall (fun e => f e = false) t -> List.filter f t = [].
Proof.
  induction 1 as [|e t He _ IH]; [reflexivity|].
  cbn [List.filter]. now rewrite He.
Qed.

Lemma failure_signals_app (t1 t2 : list Event) :
  failure_signals (t1 ++ t2) = failure_signals t1 ++ failure_signals t2.
Proof. apply List.filter_app. Qed.

Lemma failure_signals_checks w commandId from k :
  failure_signals (checks_events w commandId from k) = [].
Proof. apply filter_none. now apply checks_events_Forall. Qed.

Lemma failure_signals_report commandId r :
  failure_signals (report_events commandId r) =
  match default "" (StandardErrorContent r) with
  | "" => []
  | _ => [SetFailed "Stderr detected"]
  end ++
  (if is_SetFailed (verdict (Status r) (ResponseCode r))
   then [verdict (Status r) (ResponseCode r)] else []).
Proof.
  unfold report_events, stream_events, output_events.
  destruct (verdict_cases (Status r) (ResponseCode r)) as [[m ->]|[m ->]];
    destruct (default "" (StandardOutputContent r));
    destruct (default "" (StandardErrorContent r)); reflexivity.
Qed.

Lemma failure_signals_tail w commandId k msg :
  failure_signals
    (prelude w commandId ++ checks_events w commandId 1 k ++ [SetFailed msg])
  = [SetFailed msg].
Proof.
  now rewrite !failure_signals_app, failure_signals_checks.
Qed.

(** X2. The failure signals of a run whose poll loop ended: 'Stderr detected'
    when the captured stderr is not empty, then the verdict when it is a
    failure; both can occur in one run. *)
Theorem failure_signals_of_completed_run w commandId n r :
  Completes w commandId n r ->
  failure_signals (trace w) =
  match default "" (StandardErrorContent r) with
  | "" => []
  | _ => [SetFailed "Stderr detected"]
  end ++
  (if is_SetFailed (verdict (Status r) (ResponseCode r))
   then [verdict (Status r) (ResponseCode r)] else []).
Proof.
  intros H. rewrite (trace_completes _ _ _ _ H), !failure_signals_app.
  now rewrite failure_signals_checks, failure_signals_report.
Qed.

Lemma failure_signals_of_completed_run_witness :
  Completes world_failed_stderr (Some "cmd-1") 1
    (invocation "Failed" 1 None (Some "boom")) /\
  failure_signals (trace world_failed_stderr) =
  [ SetFailed "Stderr detected";
    SetFailed "Command execution failed with status: Failed" ].
Proof.
  assert (Hc : Completes world_failed_stderr (Some "cmd-1") 1
                 (invocation "Failed" 1 None (Some "boom")))
    by now apply completes_intro.
  split; [exact Hc|].
  rewrite (failure_signals_of_completed_run _ _ _ _ Hc). reflexivity.
Defined.

(** X1. [run] never throws: whatever the inputs and the service do, it returns
    normally, having signalled failure at most twice. A run that does not
    reach the end of its poll loop signals failure exactly once, as its last
    event. *)
Theorem run_never_throws w :
  outcome w = Normal tt /\
  (length (failure_signals (trace w)) <= 2)%nat /\
  ((~ exists commandId n r, Completes w commandId n r) ->
   exists msg, failure_signals (trace w) = [SetFailed msg] /\
               last (trace w) = Some (SetFailed msg)).
Proof.
  destruct (run_shape w) as [Hout Hshape]. split; [assumption|].
  assert (Htail : forall c k msg,
    last (prelude w c ++ checks_events w c 1 k ++ [SetFailed msg])
    = Some (SetFailed msg)).
  { intros c k msg. now rewrite app_assoc, last_snoc. }
  remember (trace w) as t eqn:Ht.
  destruct Hshape as [name| |e|r|commandId n e|commandId|commandId n r H].
  - split; [cbn; lia|]. intros _. eexists. split; reflexivity.
  - split; [cbn; lia|]. intros _. eexists.
    split; [reflexivity | apply last_snoc].
  - split; [cbn; lia|]. intros _. exists (message e).
    split; [reflexivity | apply last_snoc].
  - split; [cbn; lia|]. intros _. eexists.
    split; [reflexivity | apply last_snoc].
  - rewrite failure_signals_tail. split; [cbn; lia|]. intros _.
    exists (message e). split; [reflexivity | apply Htail].
  - rewrite failure_signals_tail. split; [cbn; lia|]. intros _.
    exists timeout_message. split; [reflexivity | apply Htail].
  - split.
    + rewrite !failure_signals_app, failure_signals_checks,
        failure_signals_report.
      destruct (default "" _); destruct (is_SetFailed _); cbn; lia.
    + intros Hno. exfalso. apply Hno. now exists commandId, n, r.
Qed.

(** ** Requests *)

Lemma submit_events_counts w msg :
  count is_submission (submit_events w ++ [SetFailed msg]) = 1%nat /\
  count is_status_check (submit_events w ++ [SetFailed msg]) = 0%nat /\
  count is_Send (submit_events w ++ [SetFailed msg]) = 1%nat /\
  outputs (submit_events w ++ [SetFailed msg]) = [].
Proof. repeat split. Qed.

Lemma submissions_then_failure w commandId k msg :
  count is_submission
    (prelude w commandId ++ checks_events w commandId 1 k ++ [SetFailed msg])
  = 1%nat.
Proof.
  rewrite !count_app, checks_events_submissions.
  now destruct (prelude_quiet w commandId) as (_ & _ & _ & ->).
Qed.

Lemma submissions_completes w commandId n r :
  Completes w commandId n r -> count is_submission (trace w) = 1%nat.
Proof.
  intros H. rewrite (trace_completes _ _ _ _ H), !count_app.
  rewrite checks_events_submissions, report_events_no_send.
  - now destruct (prelude_quiet w commandId) as (_ & _ & _ & ->).
  - intros [] He; try discriminate. reflexivity.
Qed.

(** X3. The submission is sent exactly when the three required inputs are
    supplied and the region is not blank (a region that is empty once trimmed
    makes the client's constructor throw), and never twice: the optional
    inputs, whatever their values, do not prevent it, and no failure makes
    [run] submit again. *)
Theorem submission_sent_iff_required_inputs w :
  (count is_submission (trace w) = 1%nat <->
   Forall (fun name => missing w name = false) required_inputs /\
   input w "region" <> "") /\
  (count is_submission (trace w) <= 1)%nat.
Proof.
  destruct (run_shape w) as [_ Hshape].
  remember (trace w) as t eqn:Ht.
  destruct Hshape as [name Hm|Hm Hreg|e Hm Hreg|r Hm Hreg|commandId n e Hs
                      |commandId Hs|commandId n r H].
  - split; [|cbn; lia]. split; [discriminate|].
    intros [Hall%first_missing_supplied _]. congruence.
  - split; [|cbn; lia]. split; [discriminate|]. intros [_ Hne]. contradiction.
  - destruct (submit_events_counts w (message e)) as [-> _].
    split; [|lia]. split; [|reflexivity]. intros _.
    split; [now apply first_missing_None | assumption].
  - destruct (submit_events_counts w
                "Cannot read properties of undefined (reading 'CommandId')")
      as [-> _].
    split; [|lia]. split; [|reflexivity]. intros _.
    split; [now apply first_missing_None | assumption].
  - rewrite submissions_then_failure. split; [|lia].
    split; [|reflexivity]. intros _. split; apply Hs.
  - rewrite submissions_then_failure. split; [|lia].
    split; [|reflexivity]. intros _. split; apply Hs.
  - rewrite Ht, (submissions_completes _ _ _ _ H). split; [|lia].
    split; [|reflexivity]. intros _. split; apply H.
Qed.

(** A blank region stops the run before the client exists. *)
Example blank_region_trace :
  trace world_blank_region =
  [ Info "Running command on instance i-0123456789abcdef0 in region ";
    Info "Command: uptime";
    SetFailed "Region is missing" ].
Proof. reflexivity. Qed.

(** X4. Every submission request names the one instance of the instance-id input
    and the document AWS-RunShellScript, and carries the command as the
    one-element commands parameter. *)
Theorem submission_targets_the_instance w req :
  Send (SendCommandCommand req) ∈ trace w ->
  InstanceIds req = [input w "instance-id"] /\
  DocumentName req = "AWS-RunShellScript" /\
  Parameters req !! "commands" = Some [input w "command"] /\
  dom (Parameters req) ⊆ {[ "commands"; "workingDirectory" ]}.
Proof.
  intros Hin. apply submission_in_trace in Hin as ->.
  split; [reflexivity|]. split; [reflexivity|].
  unfold submission, commandParams. cbn [Parameters].
  destruct (truthy (input w "working-directory")).
  - rewrite lookup_insert_ne, lookup_singleton_eq by discriminate.
    split; [reflexivity|]. rewrite dom_insert_L, dom_singleton_L. set_solver.
  - rewrite lookup_singleton_eq. split; [reflexivity|].
    rewrite dom_singleton_L. set_solver.
Qed.

Lemma submission_targets_the_instance_witness :
  Send (SendCommandCommand (submission world_bad_timeout))
    ∈ trace world_bad_timeout /\
  InstanceIds (submission world_bad_timeout) = ["i-0123456789abcdef0"] /\
  TimeoutSeconds (submission world_bad_timeout) = NaN.
Proof.
  assert (Hin : Send (SendCommandCommand (submission world_bad_timeout))
                ∈ trace world_bad_timeout)
    by (apply submission_sent; [repeat constructor | discriminate]).
  split; [exact Hin|].
  destruct (submission_targets_the_instance world_bad_timeout
              (submission world_bad_timeout) Hin) as [Hids _].
  split; [exact Hids | reflexivity].
Defined.

(** What every status check of a trace satisfies. *)
Lemma trace_status_checks (P : GetCommandInvocationInput -> Prop) w :
  (forall commandId, Submitted w commandId ->
     P {| CommandId := commandId; InstanceId := input w "instance-id" |}) ->
  forall c, Send (GetCommandInvocationCommand c) ∈ trace w -> P c.
Proof.
  intros HP c Hin.
  set (Q := fun e => forall c, e = Send (GetCommandInvocationCommand c) -> P c).
  assert (HQ : Forall Q (trace w)); [|rewrite Forall_forall in HQ;
                                      now apply (HQ _ Hin)].
  assert (Hpre : forall cid, Forall Q (prelude w cid)).
  { intros cid. unfold prelude. repeat constructor; intros c' [=]. }
  assert (Hchecks : forall cid k, Submitted w cid ->
                                  Forall Q (checks_events w cid 1 k)).
  { intros cid k Hs. apply checks_events_Forall.
    - intros c' [=].
    - intros c' [= <-]. now apply HP.
    - intros msg c' [=]. }
  assert (Hfail : forall msg, Forall Q [SetFailed msg]).
  { intros msg. repeat constructor. intros c' [=]. }
  assert (Hsubmit : Forall Q (submit_events w)).
  { unfold submit_events, prelude. cbn [firstn].
    repeat constructor; intros c' [=]. }
  assert (Hannounce : Forall Q (announce_events w)).
  { unfold announce_events, prelude. cbn [firstn].
    repeat constructor; intros c' [=]. }
  destruct (run_shape w) as [_ Hshape].
  destruct Hshape as [name| |e|r|commandId n e|commandId|commandId n r H];
    rewrite ?Forall_app; repeat split; auto.
  - apply Hchecks, H.
  - apply report_events_Forall; intros; intros c' [=].
Qed.

(** X5. Every status check asks about the instance of the instance-id input and
    about the command id that the answer to the submission carried. *)
Theorem status_checks_carry_the_ids w c :
  Send (GetCommandInvocationCommand c) ∈ trace w ->
  InstanceId c = input w "instance-id" /\
  exists r info,
    service w 0 (SendCommandCommand (submission w)) = inr r /\
    Command_ r = Some info /\
    CommandId c = Command_CommandId info.
Proof.
  revert c.
  apply (trace_status_checks
           (fun c => InstanceId c = input w "instance-id" /\
                     exists r info,
                       service w 0 (SendCommandCommand (submission w)) = inr r /\
                       Command_ r = Some info /\
                       CommandId c = Command_CommandId info)).
  intros commandId [_ _ (r & info & Hr & Hc & Hid)].
  split; [reflexivity|]. now exists r, info.
Qed.

Lemma status_checks_carry_the_ids_witness :
  Send (status_check world_success (Some "cmd-1")) ∈ trace world_success /\
  InstanceId {| CommandId := Some "cmd-1";
                InstanceId := input world_success "instance-id" |}
  = "i-0123456789abcdef0".
Proof.
  assert (Hin : Send (status_check world_success (Some "cmd-1"))
                ∈ trace world_success).
  { rewrite world_success_trace, elem_of_app. right. elem_of_explicit. }
  split; [exact Hin|].
  destruct (status_checks_carry_the_ids world_success _ Hin) as [Hid _].
  rewrite Hid. reflexivity.
Defined.

Lemma requests_in_order_none submitted (t tail : list Event) :
  Forall (fun e => is_Send e = false) t ->
  requests_in_order submitted (t ++ tail) = requests_in_order submitted tail.
Proof.
  induction 1 as [|e t He _ IH]; [reflexivity|].
  cbn [app requests_in_order]. rewrite IH.
  now destruct e as [| | | | | |[]].
Qed.

Lemma requests_in_order_checks w commandId k : forall from tail,
  requests_in_order true (checks_events w commandId from k ++ tail) =
  requests_in_order true tail.
Proof.
  induction k as [|k IH]; intros from tail; [reflexivity|].
  rewrite checks_events_S, <- app_assoc. unfold check_events.
  destruct (answer w commandId from);
    cbn [app requests_in_order is_submission is_status_check status_check andb];
    apply IH.
Qed.

(** In a trace whose requests come in order, exactly one submission precedes
    each status check. *)
Lemma requests_in_order_before (t1 : list Event) : forall submitted e t2,
  requests_in_order submitted (t1 ++ e :: t2) = true ->
  is_status_check e = true ->
  (count is_submission t1 + (if submitted then 1 else 0) = 1)%nat.
Proof.
  induction t1 as [|x t1 IH]; intros submitted e t2 H He.
  - cbn [app requests_in_order] in H.
    assert (Hs : is_submission e = false) by now destruct e as [| | | | | |[]].
    rewrite Hs, He in H. apply andb_true_iff in H as [-> _]. reflexivity.
  - cbn [app requests_in_order] in H. unfold count. cbn [List.filter].
    destruct (is_submission x).
    + apply andb_true_iff in H as [Hb H]. apply negb_true_iff in Hb as ->.
      apply IH in H; [|assumption]. unfold count in H. cbn [length]. lia.
    + destruct (is_status_check x).
      * apply andb_true_iff in H as [_ H]. now apply IH in H.
      * now apply IH in H.
Qed.

Lemma trace_requests_in_order w : requests_in_order false (trace w) = true.
Proof.
  assert (Hfail : forall c k msg,
    requests_in_order false
      (prelude w c ++ checks_events w c 1 k ++ [SetFailed msg]) = true).
  { intros c k msg. unfold prelude.
    cbn [app requests_in_order is_submission is_status_check negb andb].
    now rewrite requests_in_order_checks. }
  destruct (run_shape w) as [_ Hshape].
  destruct Hshape as [name| |e|r|commandId n e|commandId|commandId n r H];
    try reflexivity; try apply Hfail.
  unfold prelude.
  cbn [app requests_in_order is_submission is_status_check negb andb].
  rewrite requests_in_order_checks.
  rewrite <- (app_nil_r (report_events commandId r)).
  rewrite requests_in_order_none; [reflexivity|].
  now apply report_events_Forall.
Qed.

(** X6. No run sends more than 121 requests, one submission and at most 120
    status checks, and the requests come in order: no submission is sent
    after another, and every status check has exactly one submission sent
    before it. *)
Theorem request_budget w :
  count is_Send (trace w) =
    (count is_submission (trace w) + count is_status_check (trace w))%nat /\
  (count is_Send (trace w) <= 121)%nat /\
  (count is_submission (trace w) <= 1)%nat /\
  requests_in_order false (trace w) = true /\
  (forall t1 c t2,
     trace w = t1 ++ Send (GetCommandInvocationCommand c) :: t2 ->
     count is_submission t1 = 1%nat) /\
  ((0 < count is_status_check (trace w))%nat ->
   count is_submission (trace w) = 1%nat).
Proof.
  assert (Hsplit : forall t,
    count is_Send t = (count is_submission t + count is_status_check t)%nat).
  { induction t as [|e t IH]; [reflexivity|].
    change (e :: t) with ([e] ++ t). rewrite !count_app, IH.
    destruct e as [| | | | | |[]]; cbn; lia. }
  assert (Hone : (count is_submission (trace w) <= 1)%nat).
  { destruct (run_shape w) as [_ Hshape].
    destruct Hshape as [name| |e|r|commandId n e|commandId|commandId n r H];
      try (cbn; lia); try (rewrite submissions_then_failure; lia).
    rewrite <- (trace_completes _ _ _ _ H), (submissions_completes _ _ _ _ H).
    lia. }
  assert (Hbefore : forall t1 c t2,
     trace w = t1 ++ Send (GetCommandInvocationCommand c) :: t2 ->
     count is_submission t1 = 1%nat).
  { intros t1 c t2 Ht. pose proof (trace_requests_in_order w) as Hord.
    rewrite Ht in Hord. apply requests_in_order_before in Hord; [lia|].
    reflexivity. }
  split; [apply Hsplit|]. rewrite Hsplit.
  pose proof (status_checks_bounded w) as Hb.
  split; [unfold maxAttempts in Hb; lia|]. split; [assumption|].
  split; [apply trace_requests_in_order|]. split; [assumption|].
  intros Hpos.
  assert (Hin : exists e, e ∈ trace w /\ is_status_check e = true).
  { unfold count in Hpos.
    destruct (List.filter is_status_check (trace w)) as [|e l] eqn:Hf;
      [cbn in Hpos; lia|].
    exists e. rewrite list_elem_of_In. apply List.filter_In.
    rewrite Hf. now left. }
  destruct Hin as (e & [t1 [t2 Ht]]%list_elem_of_split & He).
  destruct e as [| | | | | |[|c]]; try discriminate.
  pose proof (Hbefore _ _ _ Ht) as H1.
  rewrite Ht, count_app in Hone |- *.
  change (Send (GetCommandInvocationCommand c) :: t2)
    with ([Send (GetCommandInvocationCommand c)] ++ t2) in Hone |- *.
  rewrite count_app in Hone |- *. cbn in Hone |- *. lia.
Qed.

Example requests_out_of_order :
  requests_in_order false
    [Send (status_check world_success None);
     Send (SendCommandCommand (submission world_success))] = false /\
  requests_in_order false
    [Send (SendCommandCommand (submission world_success));
     Send (SendCommandCommand (submission world_success))] = false.
Proof. split; reflexivity. Qed.

(** ** Runs that fail while polling or submitting *)

(** X7. When the service rejects the [n]-th status check (the earlier ones having
    answered InProgress or Pending), the run ends there: it makes no further
    check, fails with that error's message as its only failure signal, and
    sets no output. *)
Theorem rejected_status_check_fails w commandId n e :
  Submitted w commandId ->
  (1 <= n <= maxAttempts)%nat ->
  Polling w commandId (n - 1) ->
  answer w commandId n = inl e ->
  trace w = prelude w commandId ++ checks_events w commandId 1 n ++
            [SetFailed (message e)] /\
  count is_status_check (trace w) = n /\
  failure_signals (trace w) = [SetFailed (message e)] /\
  outputs (trace w) = [].
Proof.
  intros Hs Hn Hp Ha.
  assert (Ht : trace w = prelude w commandId ++ checks_events w commandId 1 n ++
                         [SetFailed (message e)]).
  { unfold trace. now rewrite (run_check_rejected _ _ _ _ Hs Hn Hp Ha). }
  rewrite Ht. split; [reflexivity|]. split; [apply checks_then_failure|].
  split; [apply failure_signals_tail | apply failure_tail].
Qed.

Lemma rejected_status_check_fails_witness :
  answer world_check_rejected (Some "cmd-1") 2 =
    inl {| message := "ThrottlingException" |} /\
  count is_status_check (trace world_check_rejected) = 2%nat /\
  failure_signals (trace world_check_rejected) =
    [SetFailed "ThrottlingException"].
Proof.
  split; [reflexivity|].
  destruct (rejected_status_check_fails world_check_rejected (Some "cmd-1") 2
              {| message := "ThrottlingException" |})
    as (_ & Hcount & Hsig & _).
  - now apply submittedb_true.
  - unfold maxAttempts. lia.
  - now apply pollingb_true.
  - reflexivity.
  - split; assumption.
Defined.

(** X8. When the required inputs are supplied, the region is not blank and
    the answer to the submission carries no Command, reading its CommandId
    throws: the run fails at once with a single failure signal, makes no
    status check and sets no output. *)
Theorem submission_answer_without_command w r :
  Forall (fun name => missing w name = false) required_inputs ->
  input w "region" <> "" ->
  service w 0 (SendCommandCommand (submission w)) = inr r ->
  Command_ r = None ->
  exists msg,
    trace w = submit_events w ++ [SetFailed msg] /\
    count is_status_check (trace w) = 0%nat /\
    failure_signals (trace w) = [SetFailed msg] /\
    outputs (trace w) = [].
Proof.
  intros Hin%first_missing_supplied Hreg Hr Hc.
  eexists. unfold trace. rewrite (run_no_command _ _ Hin Hreg Hr Hc).
  cbn [snd events]. repeat split.
Qed.

Lemma submission_answer_without_command_witness :
  missing world_no_command "instance-id" = false /\
  count is_Send (trace world_no_command) = 1%nat.
Proof.
  split; [reflexivity|].
  destruct (submission_answer_without_command world_no_command
              {| Command_ := None; Status := None;
                 StandardOutputContent := None; StandardErrorContent := None;
                 ResponseCode := None |})
    as (msg & Ht & _).
  - repeat constructor.
  - discriminate.
  - reflexivity.
  - reflexivity.
  - rewrite Ht. reflexivity.
Defined.

(** X9. The failure message names the first missing required input in the order
    instance-id, region, command, whatever else is missing. *)
Theorem first_missing_input_is_named w :
  (missing w "instance-id" = true ->
   trace w = [SetFailed "Input required and not supplied: instance-id"]) /\
  (missing w "instance-id" = false -> missing w "region" = true ->
   trace w = [SetFailed "Input required and not supplied: region"]) /\
  (missing w "instance-id" = false -> missing w "region" = false ->
   missing w "command" = true ->
   trace w = [SetFailed "Input required and not supplied: command"]).
Proof.
  assert (H : forall name, first_missing w = Some name ->
    trace w = [SetFailed ("Input required and not supplied: " +:+ name)]).
  { intros name Hn. unfold trace. now rewrite (run_missing _ _ Hn). }
  repeat split; intros; apply H; unfold first_missing, required_inputs;
    cbn [List.find];
    repeat match goal with Hm : missing _ _ = _ |- _ => rewrite Hm; clear Hm end;
    reflexivity.
Qed.

Lemma first_missing_input_is_named_witness :
  missing world_only_command "instance-id" = true /\
  missing world_only_command "region" = true /\
  trace world_only_command =
  [SetFailed "Input required and not supplied: instance-id"].
Proof.
  split; [reflexivity|]. split; [reflexivity|].
  destruct (first_missing_input_is_named world_only_command) as [H _].
  apply H. reflexivity.
Defined.

(** ** Waiting *)

Lemma waited_app (t1 t2 : list Event) : waited (t1 ++ t2) = waited t1 + waited t2.
Proof.
  unfold waited. induction t1 as [|e t1 IH]; [reflexivity|].
  cbn [app foldr]. rewrite IH. destruct e; lia.
Qed.

Lemma waited_none (t : list Event) :
  Forall (fun e => is_Wait e = false) t -> waited t = 0.
Proof.
  unfold waited. induction 1 as [|e t He _ IH]; [reflexivity|].
  cbn [foldr]. rewrite IH. now destruct e.
Qed.

Lemma waited_checks w commandId from k :
  waited (checks_events w commandId from k) = 5000 * Z.of_nat k.
Proof.
  revert from. induction k as [|k IH]; intros from; [reflexivity|].
  rewrite checks_events_S, waited_app, IH. unfold check_events.
  destruct (answer w commandId from); cbn [app waited foldr]; lia.
Qed.

Lemma waited_report commandId r : waited (report_events commandId r) = 0.
Proof. apply waited_none. now apply report_events_Forall. Qed.

Lemma spaced_none prev (t : list Event) :
  Forall (fun e => is_status_check e = false) t -> spaced prev t = true.
Proof.
  intros H. revert prev. induction H as [|e t He _ IH]; intros prev;
    [reflexivity|].
  cbn [spaced]. now rewrite He, IH.
Qed.

Lemma spaced_after_none prev (t1 t2 : list Event) :
  Forall (fun e => is_status_check e = false) t1 ->
  (forall prev', spaced prev' t2 = true) ->
  spaced prev (t1 ++ t2) = true.
Proof.
  intros H H2. revert prev. induction H as [|e t He _ IH]; intros prev;
    [apply H2|].
  cbn [app spaced]. now rewrite He, IH.
Qed.

Lemma spaced_checks w commandId k : forall from prev tail,
  Forall (fun e => is_status_check e = false) tail ->
  spaced prev (checks_events w commandId from k ++ tail) = true.
Proof.
  induction k as [|k IH]; intros from prev tail Htail.
  - now apply spaced_none.
  - rewrite checks_events_S, <- app_assoc. unfold check_events.
    destruct (answer w commandId from); cbn [app spaced is_status_check status_check];
      now rewrite IH.
Qed.

Lemma report_events_no_checks commandId r :
  Forall (fun e => is_status_check e = false) (report_events commandId r).
Proof. now apply report_events_Forall. Qed.

(** X10. Polling is paced: every status check comes directly after a wait of five
    seconds, the run waits five seconds per status check and at no other
    time, and so never waits more than ten minutes in all. *)
Theorem polling_is_paced w :
  spaced None (trace w) = true /\
  waited (trace w) = 5000 * Z.of_nat (count is_status_check (trace w)) /\
  waited (trace w) <= 600000.
Proof.
  assert (Hgoal : spaced None (trace w) = true /\
    waited (trace w) = 5000 * Z.of_nat (count is_status_check (trace w))).
  { assert (Hfail : forall c k msg,
      let t := prelude w c ++ checks_events w c 1 k ++ [SetFailed msg] in
      spaced None t = true /\
      waited t = 5000 * Z.of_nat (count is_status_check t)).
    { intros c k msg. cbn zeta. split.
      - apply spaced_after_none; [unfold prelude; now repeat constructor|].
        intros prev'. apply spaced_checks. now repeat constructor.
      - rewrite checks_then_failure, !waited_app, waited_checks.
        cbn [prelude waited foldr]. lia. }
    destruct (run_shape w) as [_ Hshape].
    remember (trace w) as t eqn:Ht.
    destruct Hshape as [name| |e|r|commandId n e|commandId|commandId n r H].
    - now split.
    - now split.
    - now split.
    - now split.
    - apply Hfail.
    - apply Hfail.
    - split.
      + apply spaced_after_none; [unfold prelude; now repeat constructor|].
        intros prev'. apply spaced_checks, report_events_no_checks.
      + rewrite <- (trace_completes _ _ _ _ H), (checks_completes _ _ _ _ H).
        rewrite (trace_completes _ _ _ _ H), !waited_app, waited_checks,
          waited_report.
        cbn [prelude waited foldr]. lia. }
  destruct Hgoal as [Hs Hw]. split; [assumption|]. split; [assumption|].
  rewrite Hw. pose proof (status_checks_bounded w) as Hb.
  unfold maxAttempts in Hb. lia.
Qed.

(** ** The end of the poll loop *)

Lemma verdict_not_timeout st code : verdict st code <> SetFailed timeout_message.
Proof.
  unfold verdict, timeout_message. repeat case_decide; discriminate.
Qed.

(** X11. The attempt cap cuts no answer short: a status other than InProgress and
    Pending that arrives at any check up to and including the 120th ends the
    loop normally, and such a run never signals the polling timeout. *)
Theorem final_status_within_cap_is_honoured w commandId n r :
  Submitted w commandId ->
  (1 <= n <= 120)%nat ->
  Polling w commandId (n - 1) ->
  answer w commandId n = inr r ->
  Status r <> Some "InProgress" ->
  Status r <> Some "Pending" ->
  (SetFailed timeout_message ∉ trace w) /\
  count is_status_check (trace w) = n /\
  last (trace w) = Some (verdict (Status r) (ResponseCode r)).
Proof.
  intros Hs Hn Hp Ha Hstop1 Hstop2.
  assert (H : Completes w commandId n r)
    by (split; try assumption; intros [?|?]; contradiction).
  split; [|split].
  - intros Hin.
    destruct (set_failed_in_trace _ _ _ _ _ H Hin) as [[Hmsg _]|Hv].
    + discriminate Hmsg.
    + symmetry in Hv. now apply verdict_not_timeout in Hv.
  - now apply checks_completes with (commandId := commandId) (r := r).
  - rewrite (trace_completes _ _ _ _ H). unfold report_events.
    now rewrite !app_assoc, last_snoc.
Qed.

Lemma final_status_within_cap_is_honoured_witness :
  answer world_last_chance (Some "cmd-1") 120 =
    inr (invocation "Success" 0 (Some "done") None) /\
  count is_status_check (trace world_last_chance) = 120%nat /\
  last (trace world_last_chance) =
    Some (Info "Command completed successfully with status: Success").
Proof.
  split; [reflexivity|].
  destruct (final_status_within_cap_is_honoured world_last_chance
              (Some "cmd-1") 120 (invocation "Success" 0 (Some "done") None))
    as (_ & Hcount & Hlast).
  - now apply submittedb_true.
  - lia.
  - now apply pollingb_true.
  - reflexivity.
  - discriminate.
  - discriminate.
  - split; [exact Hcount | exact Hlast].
Defined.

(** X12. The outputs of a run whose poll loop ended are, in this order: stdout and
    stderr with the captured streams (the empty string for an absent or empty
    one), status with the final status, status-code with the final response
    code, and command-id with the id the submission returned; a property the
    responses do not carry is passed on as undefined. *)
Theorem output_values w commandId n r :
  Completes w commandId n r ->
  outputs (trace w) =
  [ ("stdout", JsString (default "" (StandardOutputContent r)));
    ("stderr", JsString (default "" (StandardErrorContent r)));
    ("status", of_string (Status r));
    ("status-code", of_number (ResponseCode r));
    ("command-id", of_string commandId) ].
Proof.
  intros H. rewrite (outputs_completes _ _ _ _ H). apply report_events_outputs.
Qed.

Lemma output_values_witness :
  Completes world_stderr (Some "cmd-1") 1
    (invocation "Success" 0 (Some "ok") (Some "warning: disk")) /\
  outputs (trace world_stderr) =
  [ ("stdout", JsString "ok"); ("stderr", JsString "warning: disk");
    ("status", JsString "Success"); ("status-code", JsNumber 0);
    ("command-id", JsString "cmd-1") ].
Proof.
  assert (Hc : Completes world_stderr (Some "cmd-1") 1
                 (invocation "Success" 0 (Some "ok") (Some "warning: disk")))
    by now apply completes_intro.
  split; [exact Hc|].
  rewrite (output_values _ _ _ _ Hc). reflexivity.
Defined.

(** X13. A final response without a ResponseCode fails the run, whatever its
    state: undefined is not the number 0. In a state other than Failed,
    TimedOut and Cancelled the message cites the code as 'undefined'. *)
Theorem absent_exit_code_fails w commandId n r :
  Completes w commandId n r ->
  ResponseCode r = None ->
  failed (trace w) = true /\
  ("status-code", JsUndefined) ∈ outputs (trace w) /\
  (~ failure_state (Status r) ->
   SetFailed ("Command exited with non-zero status code: undefined, status: "
              +:+ template (of_string (Status r))) ∈ trace w).
Proof.
  intros H Hcode. pose proof (verdict_in_trace _ _ _ _ H) as Hv.
  rewrite Hcode in Hv. split; [|split].
  - rewrite (failed_completes _ _ _ _ H), Hcode.
    assert (Hf : is_SetFailed (verdict (Status r) None) = true).
    { destruct (is_SetFailed (verdict (Status r) None)) eqn:E; [reflexivity|].
      apply verdict_failed in E as [_ E]. discriminate E. }
    rewrite Hf. apply orb_true_r.
  - rewrite (outputs_completes _ _ _ _ H), report_events_outputs, Hcode.
    elem_of_explicit.
  - intros Hst. unfold failure_state in Hst. unfold verdict in Hv.
    repeat case_decide; first [tauto | discriminate | exact Hv].
Qed.

Lemma absent_exit_code_fails_witness :
  count is_status_check (trace world_no_code) = 1%nat /\
  failed (trace world_no_code) = true.
Proof.
  split; [reflexivity|].
  apply (absent_exit_code_fails world_no_code (Some "cmd-1") 1
           {| Command_ := None; Status := Some "Success";
              StandardOutputContent := None; StandardErrorContent := None;
              ResponseCode := None |}).
  - now apply completes_intro.
  - reflexivity.
Defined.

(** X14. A status check whose response carries no Status ends the loop at once:
    the status output is undefined, and the verdict falls to the exit code,
    so that with exit code 0 and no stderr the run succeeds. *)
Theorem absent_status_ends_the_loop w commandId n r :
  Submitted w commandId ->
  (1 <= n <= maxAttempts)%nat ->
  Polling w commandId (n - 1) ->
  answer w commandId n = inr r ->
  Status r = None ->
  count is_status_check (trace w) = n /\
  ("status", JsUndefined) ∈ outputs (trace w) /\
  (succeeded (trace w) = true <->
   ResponseCode r = Some 0 /\ default "" (StandardErrorContent r) = "").
Proof.
  intros Hs Hn Hp Ha Hst.
  assert (H : Completes w commandId n r).
  { split; try assumption. rewrite Hst. intros [?|?]; discriminate. }
  split; [now apply checks_completes with (commandId := commandId) (r := r)|].
  split.
  - rewrite (outputs_completes _ _ _ _ H), report_events_outputs, Hst.
    elem_of_explicit.
  - rewrite (succeeded_completes _ _ _ _ H), Hst. unfold failure_state.
    split; [tauto|]. intros [Hc He]. repeat split; try assumption.
    intros [Hf|[Hf|Hf]]; discriminate Hf.
Qed.

Lemma absent_status_ends_the_loop_witness :
  count is_status_check (trace world_no_status) = 1%nat /\
  succeeded (trace world_no_status) = true.
Proof.
  destruct (absent_status_ends_the_loop world_no_status (Some "cmd-1") 1
              {| Command_ := None; Status := None;
                 StandardOutputContent := None; StandardErrorContent := None;
                 ResponseCode := Some 0 |})
    as (Hcount & _ & Hiff).
  - now apply submittedb_true.
  - unfold maxAttempts. lia.
  - now apply pollingb_true.
  - reflexivity.
  - reflexivity.
  - split; [exact Hcount|]. apply Hiff. now split.
Defined.

(** ** Logging of the captured streams *)

(** X15. The only warning a run ever logs is the captured stderr of a run whose
    poll loop ended, and it logs it exactly when that stderr is not empty. *)
Theorem stderr_is_the_only_warning w msg :
  Warning msg ∈ trace w <->
  exists commandId n r,
    Completes w commandId n r /\
    StandardErrorContent r = Some msg /\ msg <> "".
Proof.
  assert (Hpre : forall c, Forall (fun e => e <> Warning msg) (prelude w c)).
  { intros c. unfold prelude. repeat constructor; discriminate. }
  assert (Hchecks : forall c k,
            Forall (fun e => e <> Warning msg) (checks_events w c 1 k)).
  { intros c k. apply checks_events_Forall; discriminate. }
  assert (Hno : forall t, Forall (fun e => e <> Warning msg) t ->
                          Warning msg ∈ t -> False).
  { intros t Ht Hin. rewrite Forall_forall in Ht. now apply (Ht _ Hin). }
  split.
  - destruct (run_shape w) as [_ Hshape].
    remember (trace w) as t eqn:Ht.
    destruct Hshape as [name| |e|r|commandId n e|commandId|commandId n r H];
      intros Hin.
    + exfalso. revert Hin. apply Hno. repeat constructor; discriminate.
    + exfalso. revert Hin. apply Hno.
      unfold announce_events, prelude. cbn [firstn app].
      repeat constructor; discriminate.
    + exfalso. revert Hin. apply Hno.
      unfold submit_events, prelude. cbn [firstn app].
      repeat constructor; discriminate.
    + exfalso. revert Hin. apply Hno.
      unfold submit_events, prelude. cbn [firstn app].
      repeat constructor; discriminate.
    + exfalso. revert Hin. apply Hno. rewrite !Forall_app.
      repeat split; auto; repeat constructor; discriminate.
    + exfalso. revert Hin. apply Hno. rewrite !Forall_app.
      repeat split; auto; repeat constructor; discriminate.
    + exists commandId, n, r. split; [assumption|].
      rewrite !elem_of_app in Hin. destruct Hin as [Hin|[Hin|Hin]].
      * exfalso. revert Hin. apply Hno, Hpre.
      * exfalso. revert Hin. apply Hno, Hchecks.
      * unfold report_events, stream_events in Hin.
        rewrite !elem_of_app in Hin.
        destruct Hin as [[Hin|Hin]|[Hin|Hin]].
        -- destruct (default "" (StandardOutputContent r));
             [now apply elem_of_nil in Hin|].
           apply list_elem_of_singleton in Hin. discriminate Hin.
        -- destruct (StandardErrorContent r) as [[|c err]|];
             cbn [default from_option id] in Hin;
             try (now apply elem_of_nil in Hin).
           apply elem_of_cons in Hin as [Hin|Hin].
           ++ injection Hin as ->. now split.
           ++ apply list_elem_of_singleton in Hin. discriminate Hin.
        -- exfalso. unfold output_events in Hin.
           repeat (apply elem_of_cons in Hin as [Hin|Hin]; [discriminate|]).
           now apply elem_of_nil in Hin.
        -- apply list_elem_of_singleton in Hin.
           destruct (verdict_cases (Status r) (ResponseCode r))
             as [[m Hm]|[m Hm]]; rewrite Hm in Hin; discriminate Hin.
  - intros (commandId & n & r & H & Herr & Hne).
    rewrite (trace_completes _ _ _ _ H). unfold report_events, stream_events.
    rewrite Herr. cbn [default from_option id].
    destruct msg as [|c err]; [contradiction|].
    rewrite !elem_of_app. right. right. left. right. elem_of_explicit.
Qed.
